(** * Upload orchestration of `git lfs push`

    A shallow embedding of [commands/uploader.go] and of the push command
    that drives it, together with the properties of the upload
    orchestrator: de-duplication of object ids, the local-existence test,
    the remote existence check behind a wait group, progress accounting,
    dry runs and exit statuses. *)

From Stdlib Require Import ZArith Lia.
From stdpp Require Import base strings list gmap sets.

Set Warnings "-clear-no-such-hyp".

Local Open Scope Z_scope.

(** ** Data model *)

(** The fields of [lfs.WrappedPointer] that the uploader reads: the object
    id and size of the embedded [lfs.Pointer], and the working-tree name. *)
Record WrappedPointer := mkPointer {
  Oid : string;
  Size : Z;
  Name : string
}.

(** [tq.Transfer], as returned by [uploadTransfer]. *)
Record Transfer := mkTransfer {
  tName : string;
  tPath : string;
  tOid : string;
  tSize : Z
}.

(** Go errors.  [errors.IsCleanPointerError] recognises the first
    constructor, whose ["pointer"] context holds the pointer found on
    disk; only its object id is read. *)
Inductive Error :=
| CleanPointerError (pointerOid : string) (msg : string)
| PlainError (msg : string).

Definition IsCleanPointerError (err : Error) : bool :=
  match err with CleanPointerError _ _ => true | PlainError _ => false end.

Definition ErrorString (err : Error) : string :=
  match err with CleanPointerError _ m => m | PlainError m => m end.

(** [tools.StringSet] is a [map[string]struct{}]. *)
Module StringSet.
Definition NewStringSet : gset string := ∅.
Definition Add (s : gset string) (x : string) : gset string := {[x]} ∪ s.
Definition Contains (s : gset string) (x : string) : bool :=
  bool_decide (x ∈ s).
End StringSet.

(** Every call the uploader makes on a collaborator, in program order: the
    progress meter, the upload queue [tq], the check queue [cq], the local
    object store and the console. *)
Inductive Event :=
| EvMeterAdd (size : Z)                              (* c.meter.Add(size) *)
| EvObjectExistsOfSize (oid : string) (size : Z)     (* lfs.ObjectExistsOfSize *)
| EvCqAdd (p : WrappedPointer)                       (* c.cq.Add(downloadTransfer(p)) *)
| EvTqSkip (size : Z)                                (* c.tq.Skip(size) *)
| EvUploadTransfer (oid name : string)               (* uploadTransfer(oid, name) *)
| EvTqAdd (name path oid : string) (size : Z)        (* q.Add(name, path, oid, size) *)
| EvTqWait                                           (* c.tq.Wait() *)
| EvFullError (err : Error)                          (* FullError(err) *)
| EvError (msg : string)                             (* Error(msg) *)
| EvPrint (format : string) (args : list string).    (* Print(format, args...) *)

(** [uploadContext].  The handles [meter], [tq] and [cq] point to
    collaborators; what is done through them is recorded in [trace].
    [cwg] is the counter of the [sync.WaitGroup]. *)
Record uploadContext := mkContext {
  DryRun : bool;
  uploadedOids : gset string;
  cwg : Z;
  trace : list Event
}.

(** How a run stops without returning to its caller. *)
Inductive Halt :=
| OsExit (status : Z)                                (* os.Exit(status) *)
| ExitCall (format : string) (args : list string)    (* Exit(format, args...) *)
| ExitWithError (err : Error)                        (* ExitWithError(err) *)
| WaitGroupPanic                                     (* negative WaitGroup counter *)
| WaitForever.                                       (* Wait() on a counter never reaching 0 *)

Inductive Outcome (A : Type) :=
| Returns (a : A) (c : uploadContext)
| Halts (h : Halt) (c : uploadContext).
Arguments Returns {A} a c.
Arguments Halts {A} h c.

Definition ctxOf {A} (o : Outcome A) : uploadContext :=
  match o with Returns _ c => c | Halts _ c => c end.

(** Code that works on the context and may stop the process. *)
Definition Run (A : Type) : Type := uploadContext → Outcome A.

Definition ret {A} (a : A) : Run A := λ c, Returns a c.

Definition bind {A B} (m : Run A) (k : A → Run B) : Run B :=
  λ c, match m c with
       | Returns a c' => k a c'
       | Halts h c' => Halts h c'
       end.

Definition halt {A} (h : Halt) : Run A := λ c, Halts h c.

Declare Scope run_scope.
Delimit Scope run_scope with run.
Notation "x <~ m ;; k" := (bind m (λ x, k))
  (at level 100, m at next level, right associativity) : run_scope.
Notation "m ;;; k" := (bind m (λ _, k))
  (at level 100, right associativity) : run_scope.
Local Open Scope run_scope.

Definition logEv (e : Event) (c : uploadContext) : uploadContext :=
  {| DryRun := DryRun c; uploadedOids := uploadedOids c;
     cwg := cwg c; trace := trace c ++ [e] |}.

Definition emit (e : Event) : Run unit := λ c, Returns tt (logEv e c).

(** 64-bit signed wrap-around of [int64] arithmetic. *)
Definition wrap64 (z : Z) : Z := (z + 2^63) mod 2^64 - 2^63.

(** ** The uploader *)

Definition SetUploaded (oid : string) (c : uploadContext) : uploadContext :=
  {| DryRun := DryRun c;
     uploadedOids := StringSet.Add (uploadedOids c) oid;
     cwg := cwg c; trace := trace c |}.

Definition HasUploaded (c : uploadContext) (oid : string) : bool :=
  StringSet.Contains (uploadedOids c) oid.

(** [sync.WaitGroup]: [Add] panics when the counter becomes negative,
    [Done] is [Add(-1)], [Wait] returns once the counter is zero. *)
Definition cwgAdd (delta : Z) : Run unit :=
  λ c, if cwg c + delta <? 0 then Halts WaitGroupPanic c
       else Returns tt {| DryRun := DryRun c; uploadedOids := uploadedOids c;
                          cwg := cwg c + delta; trace := trace c |}.

Definition cwgDone : Run unit := cwgAdd (-1).

Definition cwgWait : Run unit :=
  λ c, if cwg c =? 0 then Returns tt c else Halts WaitForever c.

(** The callback that [newUploadContext] registers with [ctx.cq.Notify]. *)
Definition notify (oid : string) (ok : bool) : Run unit :=
  λ c, cwgDone (if ok then SetUploaded oid c else c).

(** The context at the end of [newUploadContext]: an empty set, a fresh
    wait group, nothing done yet. *)
Definition newUploadContext (dryRun : bool) : uploadContext :=
  {| DryRun := dryRun; uploadedOids := StringSet.NewStringSet;
     cwg := 0; trace := [] |}.

(** The types of the push command. *)

Inductive RefType :=
| RefTypeLocalBranch | RefTypeRemoteBranch | RefTypeLocalTag
| RefTypeRemoteTag | RefTypeHEAD | RefTypeOther.

(** [git.Ref]. *)
Record Ref := mkRef {
  refName : string;
  refType : RefType;
  refSha : string
}.

(** What a scanner call does: the arguments of the callbacks it makes, in
    order ([inr] when the callback gets an error), then the error it
    returns. *)
Definition Scan : Type := list (WrappedPointer + Error) * option Error.

(** What [pushCommand] leaves behind: it stops before the upload context
    exists, or the context is created and the rest runs on it. *)
Inductive PushOutcome :=
| PushStops (printed : list Event) (h : Halt)
| PushRuns (remote : string) (o : Outcome unit).

(** The line feed of the format ["%v\n%v"]. *)
Definition newline : string :=
  String (Ascii.Ascii false true false true false false false false)
    EmptyString.

(** ** Scenarios

    Concrete pointers and collaborators on which the properties below are
    exercised. *)

Definition ptrA : WrappedPointer := mkPointer "A" 10 "a.bin".
Definition ptrB : WrappedPointer := mkPointer "B" 5 "b.bin".
Definition ptrC : WrappedPointer := mkPointer "C" 5 "c.bin".
(** The same object as [ptrC], referenced from another path. *)
Definition ptrC2 : WrappedPointer := mkPointer "C" 5 "copy/c.bin".

(** A local store that holds only the object A, of 10 bytes. *)
Definition storeWithA (oid : string) (size : Z) : bool :=
  String.eqb oid "A" && (size =? 10).

(** A server that holds only the object B. *)
Definition serverWithB (oid : string) : bool := String.eqb oid "B".

(** A check queue that answers in the order of submission, and one that
    answers in the opposite order. *)
Definition inOrder (l : list WrappedPointer) : list WrappedPointer := l.
Definition lastFirst (l : list WrappedPointer) : list WrappedPointer :=
  reverse l.

(** A local store in which every object resolves. *)
Definition resolveAll (oid name : string) : Transfer + Error :=
  inl (mkTransfer name (".git/lfs/objects/" +:+ oid) oid 1).

(** An upload queue without errors, and one reporting a failed object. *)
Definition noErrors (_ : list Event) : list Error := [].
Definition oneError (_ : list Event) : list Error :=
  [PlainError "upload failed"].

(** A command line whose only valid remote is [origin], in a repository
    without refs and with nothing to scan. *)
Definition onlyOrigin (remote : string) : option Error :=
  if String.eqb remote "origin" then None
  else Some (PlainError "invalid remote name").
Definition noRefs : list Ref + Error := inl [].
Definition anyRemote (_ : string) : option Error := None.
Definition emptyScan (_ : string) : Scan := ([], None).

(** Two local refs of the same name, a store in which the pointer found
    for C is that of another object, and scans: one that finds A and B,
    and one that fails on the ref [broken]. *)
Definition refMaster : Ref := mkRef "master" RefTypeLocalBranch "1111".
Definition refMaster2 : Ref := mkRef "master" RefTypeLocalBranch "2222".
Definition twoMasters : list Ref + Error := inl [refMaster; refMaster2].
Definition mismatchOnC (oid name : string) : Transfer + Error :=
  if String.eqb oid "C" then inr (CleanPointerError "D" "pointer mismatch")
  else resolveAll oid name.
Definition refBroken : Ref := mkRef "broken" RefTypeLocalBranch "3333".
Definition scanAB (_ : string) : Scan := ([inl ptrA; inl ptrB], None).
Definition scanBroken (ref : string) : Scan :=
  if String.eqb ref "broken"
  then ([inl ptrC], Some (PlainError "scan failed"))
  else ([inl ptrA], None).

Section Uploader.

Set Default Proof Using "Type*".

(** The collaborators. *)
Variable ObjectExistsOfSize : string → Z → bool.
(** What the check queue reports for an object id: [true] when the server
    has the object. *)
Variable serverHas : string → bool.
(** The order in which the check queue answers the transfers it was
    given; any order may occur. *)
Variable answerOrder : list WrappedPointer → list WrappedPointer.
Variable uploadTransfer : string → string → Transfer + Error.
(** [c.tq.Errors()] once the queue has drained, given what was done. *)
Variable tqErrors : list Event → list Error.

(** The first loop of [prepareUpload]. *)
Fixpoint classify (unfiltered : list WrappedPointer) (uniqOids : gset string)
    (uploadables missingLocalObjects : list WrappedPointer) (missingSize : Z)
    (c : uploadContext)
  : uploadContext * (list WrappedPointer * list WrappedPointer * Z) :=
  match unfiltered with
  | [] => (c, (uploadables, missingLocalObjects, missingSize))
  | p :: rest =>
      if StringSet.Contains uniqOids (Oid p) || HasUploaded c (Oid p) then
        classify rest uniqOids uploadables missingLocalObjects missingSize c
      else
        let uniqOids := StringSet.Add uniqOids (Oid p) in
        let c := logEv (EvMeterAdd (Size p)) c in
        let c := logEv (EvObjectExistsOfSize (Oid p) (Size p)) c in
        if ObjectExistsOfSize (Oid p) (Size p) then
          classify rest uniqOids (uploadables ++ [p]) missingLocalObjects
            missingSize c
        else
          classify rest uniqOids uploadables (missingLocalObjects ++ [p])
            (wrap64 (missingSize + Size p)) c
  end.

(** The check queue answering: one callback per transfer it was given. *)
Fixpoint answer (submitted : list WrappedPointer) : Run unit :=
  match submitted with
  | [] => ret tt
  | p :: rest => notify (Oid p) (serverHas (Oid p)) ;;; answer rest
  end.

(** The loop of [checkMissing]. *)
Fixpoint cqAddAll (missing : list WrappedPointer) : Run unit :=
  match missing with
  | [] => ret tt
  | p :: rest => emit (EvCqAdd p) ;;; cqAddAll rest
  end.

(** [checkMissing].  The callbacks run on the workers of the check queue,
    at any time between [cwg.Add] and the return of [cwg.Wait]; they make
    no call of their own on a collaborator, so that running them after the
    last [cq.Add], in the order [answerOrder], leaves the same context. *)
Definition checkMissing (missing : list WrappedPointer) (missingSize : Z)
  : Run unit :=
  cwgAdd (Z.of_nat (length missing)) ;;;
  cqAddAll missing ;;;
  answer (answerOrder missing) ;;;
  cwgWait.

(** The second loop of [prepareUpload]. *)
Fixpoint skipUploaded (missingLocalObjects uploadables : list WrappedPointer)
    (c : uploadContext) : uploadContext * list WrappedPointer :=
  match missingLocalObjects with
  | [] => (c, uploadables)
  | p :: rest =>
      if HasUploaded c (Oid p) then
        skipUploaded rest uploadables (logEv (EvTqSkip (Size p)) c)
      else
        skipUploaded rest (uploadables ++ [p]) c
  end.

(** [prepareUpload]; the queue it returns is the context's own [tq]. *)
Definition prepareUpload (unfiltered : list WrappedPointer)
  : Run (list WrappedPointer) :=
  λ c,
    let '(c, (uploadables, missingLocalObjects, missingSize)) :=
      classify unfiltered StringSet.NewStringSet [] [] 0 c in
    match checkMissing missingLocalObjects missingSize c with
    | Halts h c => Halts h c
    | Returns _ c =>
        let '(c, uploadables) :=
          skipUploaded missingLocalObjects uploadables c in
        Returns uploadables c
    end.

Definition uploadMissingErr : string :=
  "%s does not exist in .git/lfs/objects. Tried %s, which matches %s.".

(** The dry-run loop of [uploadPointers]. *)
Fixpoint printPushes (unfiltered : list WrappedPointer) : Run unit :=
  match unfiltered with
  | [] => ret tt
  | p :: rest =>
      λ c, if HasUploaded c (Oid p) then printPushes rest c
           else (emit (EvPrint "push %s => %s" [Oid p; Name p]) ;;;
                 (λ c, Returns tt (SetUploaded (Oid p) c)) ;;;
                 printPushes rest) c
  end.

(** The loop of [uploadPointers] over the pointers [prepareUpload]
    returned.  [Exit] and [ExitWithError] end the process.  The context
    ["pointer"] is read from a clean-pointer error only, which has it. *)
Fixpoint enqueueAll (pointers : list WrappedPointer) : Run unit :=
  match pointers with
  | [] => ret tt
  | p :: rest =>
      emit (EvUploadTransfer (Oid p) (Name p)) ;;;
      match uploadTransfer (Oid p) (Name p) with
      | inr err =>
          if IsCleanPointerError err then
            match err with
            | CleanPointerError actual _ =>
                halt (ExitCall uploadMissingErr [Oid p; Name p; actual])
            | PlainError _ => halt (ExitWithError err)
            end
          else halt (ExitWithError err)
      | inl t =>
          emit (EvTqAdd (tName t) (tPath t) (tOid t) (tSize t)) ;;;
          (λ c, Returns tt (SetUploaded (Oid p) c)) ;;;
          enqueueAll rest
      end
  end.

(** [uploadPointers]. *)
Definition uploadPointers (unfiltered : list WrappedPointer) : Run unit :=
  λ c, if DryRun c then printPushes unfiltered c
       else (pointers <~ prepareUpload unfiltered ;; enqueueAll pointers) c.

(** The loop of [Await]. *)
Fixpoint fullErrors (errs : list Error) : Run unit :=
  match errs with
  | [] => ret tt
  | err :: rest => emit (EvFullError err) ;;; fullErrors rest
  end.

(** [Await].  Both calls of [c.tq.Errors()] read the list of the drained
    queue; nothing is added to that queue in between. *)
Definition Await : Run unit :=
  emit EvTqWait ;;;
  λ c, let errs := tqErrors (trace c) in
       (fullErrors errs ;;;
        if (0 <? length errs)%nat then halt (OsExit 2) else ret tt) c.

(** ** The push command *)

(** The flags of the command. *)
Variables pushDryRun pushObjectIDs pushAll : bool.

(** [requireGitVersion()]: the way it stops the process, if it does. *)
Variable requireGitVersion : option Halt.
Variable ValidateRemote : string → option Error.
Variable LocalRefs : list Ref + Error.
Variable RemoteForPush : string → option Error.
Variable ScanRefWithDeleted : string → Scan.
Variable ScanLeftToRemote : string → Scan.

(** The callback [cb] of [scanLeftOrAll], on the pair of its captured
    variables [pointers] and [multiErr]. *)
Definition scanCallback (st : list WrappedPointer * option Error)
    (item : WrappedPointer + Error) : list WrappedPointer * option Error :=
  let '(pointers, multiErr) := st in
  match item with
  | inr err =>
      match multiErr with
      | Some m =>
          (pointers,
           Some (PlainError (ErrorString m +:+ newline +:+ ErrorString err)))
      | None => (pointers, Some err)
      end
  | inl p => (pointers ++ [p], multiErr)
  end.

(** [scanLeftOrAll]: the pointers scanned and the error returned. *)
Definition scanLeftOrAll (ref : string)
  : list WrappedPointer * option Error :=
  let st := ([], None) in
  let '(items, err) :=
    if pushAll then ScanRefWithDeleted ref else ([], None) in
  let st := foldl scanCallback st items in
  match err with
  | Some err => (st.1, Some err)
  | None =>
      let '(items, err) := ScanLeftToRemote ref in
      let st := foldl scanCallback st items in
      match err with
      | Some err => (st.1, Some err)
      | None => st
      end
  end.

(** [refsByNames]; a later local ref replaces an earlier one of the same
    name in [reflookup]. *)
Definition refsByNames (refnames : list string) : list Ref + Error :=
  match LocalRefs with
  | inr err => inr err
  | inl localrefs =>
      if pushAll && (length refnames =? 0)%nat then inl localrefs
      else
        let reflookup : gmap string Ref :=
          foldl (λ m ref, <[refName ref := ref]> m) ∅ localrefs in
        inl (map (λ name,
                    match reflookup !! name with
                    | Some ref => ref
                    | None => {| refName := name; refType := RefTypeOther;
                                 refSha := name |}
                    end) refnames)
  end.

(** The loop of [uploadsBetweenRefAndRemote] over the refs. *)
Fixpoint uploadRefs (refs : list Ref) : Run unit :=
  match refs with
  | [] => ret tt
  | ref :: rest =>
      match scanLeftOrAll (refName ref) with
      | (_, Some err) =>
          emit (EvPrint "Error scanning for Git LFS files in the %q ref"
                  [refName ref]) ;;;
          halt (ExitWithError err)
      | (pointers, None) => uploadPointers pointers ;;; uploadRefs rest
      end
  end.

(** [uploadsBetweenRefAndRemote], with [cfg.CurrentRemote] as [remote].
    The trace output and the deferred [gitscanner.Close()] are left out. *)
Definition uploadsBetweenRefAndRemote (remote : string)
    (refnames : list string) : Run unit :=
  match RemoteForPush remote with
  | Some err => halt (ExitWithError err)
  | None =>
      match refsByNames refnames with
      | inr err =>
          emit (EvError (ErrorString err)) ;;;
          halt (ExitCall "Error getting local refs." [])
      | inl refs => uploadRefs refs ;;; Await
      end
  end.

(** [uploadsWithObjectIDs]: a pointer per object id, of size 0 and without
    name. *)
Definition uploadsWithObjectIDs (oids : list string) : Run unit :=
  let pointers :=
    map (λ oid, {| Oid := oid; Size := 0; Name := EmptyString |}) oids in
  uploadPointers pointers ;;; Await.

(** [pushCommand].  [PushRuns remote o] records the remote stored in
    [cfg.CurrentRemote] and what happens on the new upload context. *)
Definition pushCommand (args : list string) : PushOutcome :=
  match args with
  | [] =>
      PushStops
        [EvPrint "Specify a remote and a remote branch name (`git lfs push origin master`)" []]
        (OsExit 1)
  | remote :: _ =>
      match requireGitVersion with
      | Some h => PushStops [] h
      | None =>
          match ValidateRemote remote with
          | Some _ =>
              PushStops [] (ExitCall "Invalid remote name %q" [remote])
          | None =>
              let ctx := newUploadContext pushDryRun in
              PushRuns remote
                (if pushObjectIDs then
                   if (length args <? 2)%nat then
                     emit (EvPrint "Usage: git lfs push --object-id <remote> <lfs-object-id> [lfs-object-id] ..." []) ctx
                   else uploadsWithObjectIDs (drop 1 args) ctx
                 else
                   if (length args <? 1)%nat then
                     emit (EvPrint "Usage: git lfs push --dry-run <remote> [ref]" []) ctx
                   else uploadsBetweenRefAndRemote remote (drop 1 args) ctx)
          end
      end
  end.

(** ** Vocabulary of the properties *)

(** The pointers of [ps] that the first loop of [prepareUpload] does not
    skip: those whose object id is not in [seen] and that are the first
    of [ps] with their object id. *)
Fixpoint firstNew (seen : gset string) (ps : list WrappedPointer)
  : list WrappedPointer :=
  match ps with
  | [] => []
  | p :: rest =>
      if bool_decide (Oid p ∈ seen) then firstNew seen rest
      else p :: firstNew ({[Oid p]} ∪ seen) rest
  end.

(** The first pointer of [ps] with the object id [o]. *)
Definition firstWith (o : string) (ps : list WrappedPointer)
  : option WrappedPointer :=
  List.find (λ q, bool_decide (Oid q = o)) ps.

Definition localPresent (p : WrappedPointer) : bool :=
  ObjectExistsOfSize (Oid p) (Size p).

Definition onServer (p : WrappedPointer) : bool := serverHas (Oid p).

(** The lists the two loops of [prepareUpload] build from the input [ps]
    on a context whose uploaded set is [U]: the pointers considered, those
    of them found in the local store, and those sent to the check queue. *)
Definition considered (U : gset string) (ps : list WrappedPointer)
  : list WrappedPointer := firstNew U ps.

Definition foundLocally (U : gset string) (ps : list WrappedPointer)
  : list WrappedPointer := List.filter localPresent (considered U ps).

Definition toCheck (U : gset string) (ps : list WrappedPointer)
  : list WrappedPointer :=
  List.filter (λ p, negb (localPresent p)) (considered U ps).

(** The to-check pointers the server turns out to have, and the others. *)
Definition confirmedRemote (U : gset string) (ps : list WrappedPointer)
  : list WrappedPointer := List.filter onServer (toCheck U ps).

Definition stillMissing (U : gset string) (ps : list WrappedPointer)
  : list WrappedPointer :=
  List.filter (λ p, negb (onServer p)) (toCheck U ps).

(** The calls the upload loop of [uploadPointers] makes for [pointers]: a
    resolution per pointer, followed by the hand-over to the queue when it
    succeeds; the loop ends at the first resolution that fails. *)
Fixpoint enqueueTrace (pointers : list WrappedPointer) : list Event :=
  match pointers with
  | [] => []
  | p :: rest =>
      EvUploadTransfer (Oid p) (Name p)
      :: match uploadTransfer (Oid p) (Name p) with
         | inl t =>
             EvTqAdd (tName t) (tPath t) (tOid t) (tSize t)
             :: enqueueTrace rest
         | inr _ => []
         end
  end.

(** The notice a dry run prints for a pointer. *)
Definition pushNotice (p : WrappedPointer) : Event :=
  EvPrint "push %s => %s" [Oid p; Name p].

(** A piece of code under which the uploaded set only grows, however it
    ends. *)
Definition grows {A} (m : Run A) : Prop :=
  ∀ c, uploadedOids c ⊆ uploadedOids (ctxOf (m c)).

(** The calls recorded in a trace, by collaborator. *)
Definition cqAdds (evs : list Event) : list WrappedPointer :=
  omap (λ e, match e with EvCqAdd p => Some p | _ => None end) evs.

Definition meterAdds (evs : list Event) : list Z :=
  omap (λ e, match e with EvMeterAdd n => Some n | _ => None end) evs.

Definition tqSkips (evs : list Event) : list Z :=
  omap (λ e, match e with EvTqSkip n => Some n | _ => None end) evs.

Definition tqAdds (evs : list Event) : list Transfer :=
  omap (λ e, match e with
             | EvTqAdd n p o sz => Some (mkTransfer n p o sz)
             | _ => None
             end) evs.

(** The object ids of the push notices of a dry run. *)
Definition pushNotices (evs : list Event) : list string :=
  omap (λ e, match e with
             | EvPrint format (oid :: _) =>
                 if String.eqb format "push %s => %s" then Some oid else None
             | _ => None
             end) evs.

Definition isPrint (e : Event) : bool :=
  match e with EvPrint _ _ => true | _ => false end.

Definition sumZ (l : list Z) : Z := foldr Z.add 0 l.

(** The two calls the first loop makes for a pointer it does not skip. *)
Definition estimate (p : WrappedPointer) : list Event :=
  [EvMeterAdd (Size p); EvObjectExistsOfSize (Oid p) (Size p)].

(** The other calls recorded in a trace: the object ids given to
    [uploadTransfer], and the arguments of [lfs.ObjectExistsOfSize]. *)
Definition resolutions (evs : list Event) : list string :=
  omap (λ e, match e with EvUploadTransfer o _ => Some o | _ => None end) evs.

Definition storeTests (evs : list Event) : list (string * Z) :=
  omap (λ e, match e with
             | EvObjectExistsOfSize o n => Some (o, n)
             | _ => None
             end) evs.



(** What the callbacks of a scan were given: the pointers, and the
    errors. *)
Definition pointersOf (items : list (WrappedPointer + Error))
  : list WrappedPointer :=
  omap (λ item, match item with inl p => Some p | inr _ => None end) items.

Definition errorsOf (items : list (WrappedPointer + Error)) : list Error :=
  omap (λ item, match item with inl _ => None | inr e => Some e end) items.

(** The error [scanLeftOrAll] makes of the errors its callback was given:
    the error itself when there is one, and otherwise an error whose
    message has their messages on a line each. *)
Definition joined (errs : list Error) : option Error :=
  match errs with
  | [] => None
  | [err] => Some err
  | _ => Some (PlainError (String.concat newline (ErrorString <$> errs)))
  end.

(** The local ref that [reflookup] holds for a name: the last one of that
    name. *)
Definition lastNamed (name : string) (localrefs : list Ref) : option Ref :=
  last (List.filter (λ ref, bool_decide (refName ref = name)) localrefs).

(** The object ids a trace shows as handled: given to [uploadTransfer],
    or announced by a push notice. *)
Definition handled (evs : list Event) : list string :=
  omap (λ e, match e with
             | EvUploadTransfer o _ => Some o
             | EvPrint format (o :: _) =>
                 if String.eqb format "push %s => %s" then Some o else None
             | _ => None
             end) evs.



(** A piece of code that handles no object id twice, and none that is
    already uploaded; when it returns, what it has handled is uploaded. *)
Definition once {A} (m : Run A) : Prop :=
  ∀ c, cwg c = 0 →
       ∃ evs,
         trace (ctxOf (m c)) = trace c ++ evs
         ∧ NoDup (handled evs)
         ∧ (∀ o, o ∈ handled evs → o ∉ uploadedOids c)
         ∧ uploadedOids c ⊆ uploadedOids (ctxOf (m c))
         ∧ ∀ a c', m c = Returns a c' →
                   cwg c' = 0 ∧ ∀ o, o ∈ handled evs → o ∈ uploadedOids c'.

(** A piece of code that only adds to the trace, and only events that [P]
    allows, however it ends. *)
Definition emits {A} (P : Event → Prop) (m : Run A) : Prop :=
  ∀ c, ∃ evs, trace (ctxOf (m c)) = trace c ++ evs ∧ Forall P evs.

(** The usage line of the branch of [pushCommand] for refs. *)
Definition usageForRefs : Event :=
  EvPrint "Usage: git lfs push --dry-run <remote> [ref]" [].

(** ** Facts about lists and about [firstNew] *)

(** Forget the collaborators a statement does not speak of, so that no
    automation picks them up. *)
Ltac narrow := repeat match goal with H : _ |- _ => clear H end.

Lemma firstNew_elem seen ps p :
  p ∈ firstNew seen ps → p ∈ ps ∧ Oid p ∉ seen.
Proof.
  narrow.
  revert seen. induction ps as [|q ps IH]; intros seen; simpl.
  - intros H. by apply elem_of_nil in H.
  - case_bool_decide as Hq.
    + intros H. destruct (IH _ H). split; [by right | done].
    + intros [->|H]%elem_of_cons.
      * split; [by left | done].
      * destruct (IH _ H) as [? Hn]. split; [by right | set_solver].
Qed.

Lemma firstNew_oids seen ps o :
  o ∈ Oid <$> firstNew seen ps ↔ (o ∉ seen) ∧ o ∈ Oid <$> ps.
Proof.
  narrow.
  revert seen. induction ps as [|q ps IH]; intros seen; simpl.
  - set_solver.
  - case_bool_decide as Hq; rewrite ?fmap_cons, ?elem_of_cons, ?IH.
    + split; [naive_solver|]. intros [Hn [->|?]]; [done | by split].
    + destruct (decide (o = Oid q)) as [->|Hne]; [naive_solver | set_solver].
Qed.

Lemma firstNew_NoDup seen ps : NoDup (Oid <$> firstNew seen ps).
Proof.
  narrow.
  revert seen. induction ps as [|q ps IH]; intros seen; simpl.
  - constructor.
  - case_bool_decide; [apply IH|].
    rewrite fmap_cons. constructor; [|apply IH].
    rewrite firstNew_oids. set_solver.
Qed.

Lemma firstNew_sublist seen ps : (firstNew seen ps) `sublist_of` ps.
Proof.
  revert seen. induction ps as [|q ps IH]; intros seen; simpl; [done|].
  case_bool_decide; [by apply sublist_cons | by apply sublist_skip].
Qed.

Lemma firstNew_app seen ps qs :
  firstNew seen (ps ++ qs)
  = firstNew seen ps ++ firstNew (list_to_set (Oid <$> ps) ∪ seen) qs.
Proof.
  narrow.
  revert seen. induction ps as [|q ps IH]; intros seen; simpl.
  - by rewrite (left_id_L ∅ (∪)).
  - case_bool_decide as Hq; rewrite IH; simpl.
    + apply (f_equal (app (firstNew seen ps))).
      apply (f_equal (λ s, firstNew s qs)). set_solver.
    + apply (f_equal (cons q)), (f_equal (app (firstNew _ ps))).
      apply (f_equal (λ s, firstNew s qs)). set_solver.
Qed.

Lemma firstNew_all_seen seen ps :
  (∀ p, p ∈ ps → Oid p ∈ seen) → firstNew seen ps = [].
Proof.
  induction ps as [|q ps IH]; intros H; simpl; [done|].
  rewrite bool_decide_true by (apply H; by left).
  apply IH. intros p Hp. apply H. by right.
Qed.

Lemma firstNew_first seen ps p :
  p ∈ firstNew seen ps ↔ (Oid p ∉ seen) ∧ firstWith (Oid p) ps = Some p.
Proof.
  narrow.
  unfold firstWith.
  revert seen. induction ps as [|q ps IH]; intros seen; simpl.
  - split; [by intros ?%elem_of_nil | by intros [_ ?]].
  - case_bool_decide as Hq; case_bool_decide as Hqp.
    + rewrite IH. split; [intros [Hn _]|intros [Hn _]]; congruence.
    + by rewrite IH.
    + rewrite elem_of_cons, IH. split.
      * intros [->|[Hn _]]; [done | set_solver].
      * intros [Hn [= ->]]. by left.
    + rewrite elem_of_cons, IH. split.
      * intros [->|[Hn ?]]; [done | split; [set_solver | done]].
      * intros [Hn ?]. right. split; [set_solver | done].
Qed.

Lemma firstWith_Some o ps p :
  firstWith o ps = Some p → p ∈ ps ∧ Oid p = o.
Proof.
  unfold firstWith. intros [Hin Ho]%find_some.
  split; [by apply list_elem_of_In | by apply bool_decide_eq_true in Ho].
Qed.

Lemma firstWith_exists ps p :
  p ∈ ps → ∃ q, firstWith (Oid p) ps = Some q ∧ q ∈ ps ∧ Oid q = Oid p.
Proof.
  intros Hp. unfold firstWith.
  destruct (List.find _ ps) as [q|] eqn:Hf.
  - exists q. split; [done|]. by apply (firstWith_Some (Oid p) ps q).
  - apply list_elem_of_In in Hp.
    pose proof (find_none _ _ Hf p Hp) as Hn. simpl in Hn.
    by rewrite bool_decide_true in Hn.
Qed.

Lemma filter_sublist {A} (f : A → bool) (l : list A) :
  (List.filter f l) `sublist_of` l.
Proof.
  induction l as [|x l IH]; simpl; [done|].
  destruct (f x); [by apply sublist_skip | by apply sublist_cons].
Qed.

Lemma filter_none {A} (f : A → bool) (l : list A) :
  (∀ x, x ∈ l → f x = false) → List.filter f l = [].
Proof.
  intros H. rewrite (filter_ext_in f (λ _, false)).
  - apply List.filter_false.
  - intros x Hx. by apply H, list_elem_of_In.
Qed.

Lemma elem_of_filter {A} (f : A → bool) (l : list A) x :
  x ∈ List.filter f l ↔ x ∈ l ∧ f x = true.
Proof. by rewrite !list_elem_of_In, filter_In. Qed.

Lemma NoDup_count_occ_le (l : list string) o :
  NoDup l → (count_occ String.string_dec l o ≤ 1)%nat.
Proof.
  intros H%NoDup_ListNoDup.
  by apply (proj1 (NoDup_count_occ String.string_dec l)).
Qed.

Lemma NoDup_count_occ_1 (l : list string) o :
  NoDup l → o ∈ l → count_occ String.string_dec l o = 1%nat.
Proof.
  intros Hn Ho. pose proof (NoDup_count_occ_le l o Hn).
  apply list_elem_of_In, (count_occ_In String.string_dec) in Ho. lia.
Qed.

Lemma sumZ_app l k : sumZ (l ++ k) = sumZ l + sumZ k.
Proof. induction l as [|x l IH]; simpl; [done | rewrite IH; lia]. Qed.

Lemma sumZ_filter_split {A} (f : A → bool) (g : A → Z) (l : list A) :
  sumZ (g <$> l)
  = sumZ (g <$> List.filter f l) + sumZ (g <$> List.filter (λ x, negb (f x)) l).
Proof.
  induction l as [|x l IH]; [done|].
  cbn [List.filter]. rewrite fmap_cons.
  destruct (f x); cbn [negb]; rewrite ?fmap_cons;
    unfold sumZ in *; cbn [foldr]; rewrite IH; lia.
Qed.

Lemma considered_NoDup U ps : NoDup (Oid <$> considered U ps).
Proof. apply firstNew_NoDup. Qed.

Lemma toCheck_NoDup U ps : NoDup (Oid <$> toCheck U ps).
Proof.
  eapply sublist_NoDup; [apply (considered_NoDup U ps)|].
  apply fmap_sublist, filter_sublist.
Qed.

Lemma toCheck_elem U ps p :
  p ∈ toCheck U ps
  ↔ (Oid p ∉ U) ∧ firstWith (Oid p) ps = Some p ∧ localPresent p = false.
Proof.
  narrow.
  unfold toCheck, considered. rewrite elem_of_filter, firstNew_first.
  rewrite negb_true_iff. naive_solver.
Qed.

Lemma ready_oids U ps p :
  p ∈ toCheck U ps → serverHas (Oid p) = true →
  Oid p ∉ Oid <$> (foundLocally U ps ++ stillMissing U ps).
Proof.
  intros Hp Hs [q [Hqp Hq]]%list_elem_of_fmap_1.
  assert (Hpc : p ∈ considered U ps).
  { unfold toCheck in Hp. by apply elem_of_filter in Hp as [? _]. }
  assert (q = p) as ->.
  { assert (Hqc : q ∈ considered U ps).
    { apply elem_of_app in Hq as [Hq|Hq].
      - unfold foundLocally in Hq. by apply elem_of_filter in Hq as [? _].
      - unfold stillMissing, toCheck in Hq.
        apply elem_of_filter in Hq as [Hq _].
        by apply elem_of_filter in Hq as [? _]. }
    pose proof (considered_NoDup U ps) as Hnd.
    apply list_elem_of_lookup in Hpc as [i Hi].
    apply list_elem_of_lookup in Hqc as [j Hj].
    assert (i = j) as ->; [|congruence].
    eapply NoDup_lookup; [exact Hnd|..];
      rewrite list_lookup_fmap; [by rewrite Hi | by rewrite Hj, Hqp]. }
  apply elem_of_app in Hq as [Hq|Hq].
  - unfold foundLocally in Hq. apply elem_of_filter in Hq as [_ Hl].
    apply toCheck_elem in Hp as (_ & _ & Hl'). congruence.
  - unfold stillMissing in Hq. apply elem_of_filter in Hq as [_ Hn].
    unfold onServer in Hn. rewrite Hs in Hn. done.
Qed.

Lemma context_eq c c' :
  DryRun c' = DryRun c → cwg c' = cwg c → trace c' = trace c →
  (∀ o, o ∈ uploadedOids c' ↔ o ∈ uploadedOids c) → c' = c.
Proof.
  destruct c, c'; simpl. intros -> -> -> Hu. f_equal. by apply set_eq.
Qed.

(** ** Reading a trace *)

Lemma cqAdds_app l k : cqAdds (l ++ k) = cqAdds l ++ cqAdds k.
Proof. apply omap_app. Qed.

Lemma meterAdds_app l k : meterAdds (l ++ k) = meterAdds l ++ meterAdds k.
Proof. apply omap_app. Qed.

Lemma tqSkips_app l k : tqSkips (l ++ k) = tqSkips l ++ tqSkips k.
Proof. apply omap_app. Qed.

Lemma tqAdds_app l k : tqAdds (l ++ k) = tqAdds l ++ tqAdds k.
Proof. apply omap_app. Qed.

Lemma pushNotices_app l k :
  pushNotices (l ++ k) = pushNotices l ++ pushNotices k.
Proof. apply omap_app. Qed.

Lemma estimate_calls D :
  meterAdds (flat_map estimate D) = Size <$> D
  ∧ cqAdds (flat_map estimate D) = []
  ∧ tqSkips (flat_map estimate D) = []
  ∧ tqAdds (flat_map estimate D) = [].
Proof.
  induction D as [|p D (IH1 & IH2 & IH3 & IH4)]; [done|].
  cbn [flat_map estimate app]. repeat split; [|done..].
  change (meterAdds (EvMeterAdd (Size p) :: EvObjectExistsOfSize (Oid p) (Size p)
                     :: flat_map estimate D))
    with (Size p :: meterAdds (flat_map estimate D)).
  by rewrite IH1.
Qed.

Lemma cqAdd_calls T :
  meterAdds (EvCqAdd <$> T) = []
  ∧ cqAdds (EvCqAdd <$> T) = T
  ∧ tqSkips (EvCqAdd <$> T) = []
  ∧ tqAdds (EvCqAdd <$> T) = [].
Proof.
  induction T as [|p T (IH1 & IH2 & IH3 & IH4)]; [done|].
  repeat split; [done| |done..].
  change (cqAdds (EvCqAdd <$> p :: T)) with (p :: cqAdds (EvCqAdd <$> T)).
  by rewrite IH2.
Qed.

Lemma tqSkip_calls (R : list WrappedPointer) :
  meterAdds (EvTqSkip ∘ Size <$> R) = []
  ∧ cqAdds (EvTqSkip ∘ Size <$> R) = []
  ∧ tqSkips (EvTqSkip ∘ Size <$> R) = Size <$> R
  ∧ tqAdds (EvTqSkip ∘ Size <$> R) = [].
Proof.
  induction R as [|p R (IH1 & IH2 & IH3 & IH4)]; [done|].
  repeat split; [done..| |done].
  change (tqSkips (EvTqSkip ∘ Size <$> p :: R))
    with (Size p :: tqSkips (EvTqSkip ∘ Size <$> R)).
  by rewrite IH3.
Qed.

Lemma estimate_elem D e :
  e ∈ flat_map estimate D →
  ∃ p, p ∈ D ∧ (e = EvMeterAdd (Size p)
                ∨ e = EvObjectExistsOfSize (Oid p) (Size p)).
Proof.
  intros (p & Hp & He)%list_elem_of_In%in_flat_map.
  exists p. split; [by apply list_elem_of_In|].
  destruct He as [<-|[<-|[]]]; auto.
Qed.

Lemma prepare_calls U ps :
  let evs := flat_map estimate (considered U ps)
             ++ (EvCqAdd <$> toCheck U ps)
             ++ (EvTqSkip ∘ Size <$> confirmedRemote U ps) in
  meterAdds evs = Size <$> considered U ps
  ∧ cqAdds evs = toCheck U ps
  ∧ tqSkips evs = Size <$> confirmedRemote U ps
  ∧ tqAdds evs = [].
Proof.
  intros evs. subst evs.
  rewrite !meterAdds_app, !cqAdds_app, !tqSkips_app, !tqAdds_app.
  destruct (estimate_calls (considered U ps)) as (-> & -> & -> & ->).
  destruct (cqAdd_calls (toCheck U ps)) as (-> & -> & -> & ->).
  destruct (tqSkip_calls (confirmedRemote U ps)) as (-> & -> & -> & ->).
  by rewrite !app_nil_r.
Qed.

Lemma pushNotices_notices l : pushNotices (pushNotice <$> l) = Oid <$> l.
Proof.
  induction l as [|p l IH]; [done|].
  rewrite !fmap_cons, <- IH. reflexivity.
Qed.

(** ** What each piece of the uploader does *)

Lemma seen_or_uploaded uniq c o :
  StringSet.Contains uniq o || HasUploaded c o
  = bool_decide (o ∈ uniq ∪ uploadedOids c).
Proof.
  narrow.
  unfold HasUploaded, StringSet.Contains.
  repeat case_bool_decide; simpl; set_solver.
Qed.

Lemma classify_run ps : ∀ uniq ups miss ms c,
  let F := firstNew (uniq ∪ uploadedOids c) ps in
  classify ps uniq ups miss ms c
  = ({| DryRun := DryRun c; uploadedOids := uploadedOids c; cwg := cwg c;
        trace := trace c ++ flat_map estimate F |},
     (ups ++ List.filter localPresent F,
      miss ++ List.filter (λ p, negb (localPresent p)) F,
      foldl (λ acc p, wrap64 (acc + Size p)) ms
        (List.filter (λ p, negb (localPresent p)) F))).
Proof.
  induction ps as [|p ps IH]; intros uniq ups miss ms c; simpl.
  - rewrite !app_nil_r. by destruct c.
  - rewrite seen_or_uploaded. case_bool_decide as Hp; [apply IH|].
    unfold StringSet.Add. simpl.
    change (ObjectExistsOfSize (Oid p) (Size p)) with (localPresent p).
    destruct (localPresent p) eqn:Hex;
      rewrite IH; simpl; rewrite <- ?(assoc_L (∪)), <- ?(assoc_L (++)); done.
Qed.

Lemma cqAddAll_run miss : ∀ c,
  cqAddAll miss c
  = Returns tt {| DryRun := DryRun c; uploadedOids := uploadedOids c;
                  cwg := cwg c; trace := trace c ++ (EvCqAdd <$> miss) |}.
Proof.
  induction miss as [|p miss IH]; intros c; simpl.
  - rewrite app_nil_r. by destruct c.
  - unfold bind, emit. rewrite IH. simpl. by rewrite <- (assoc_L (++)).
Qed.

(** The callbacks: none panics as long as the counter covers them; they
    leave the trace alone and add the ids the server has. *)
Lemma answer_run l : ∀ c,
  Z.of_nat (length l) ≤ cwg c →
  ∃ c', answer l c = Returns tt c'
        ∧ DryRun c' = DryRun c
        ∧ trace c' = trace c
        ∧ cwg c' = cwg c - Z.of_nat (length l)
        ∧ ∀ o, o ∈ uploadedOids c'
               ↔ o ∈ uploadedOids c ∨ (o ∈ Oid <$> l ∧ serverHas o = true).
Proof.
  narrow.
  induction l as [|p l IH]; intros c Hc; simpl in *.
  - exists c. repeat split; try done; [lia | set_solver..].
  - unfold bind, notify, cwgDone, cwgAdd.
    set (c1 := if serverHas (Oid p) then SetUploaded (Oid p) c else c).
    assert (Hc1 : cwg c1 = cwg c) by (subst c1; by destruct (serverHas _)).
    rewrite Hc1. destruct (Z.ltb_spec (cwg c + -1) 0) as [?|_]; [lia|].
    match goal with |- context [answer l ?c2] => set (c2' := c2) end.
    destruct (IH c2') as (c' & -> & Hd & Ht & Hw & Hu); [simpl; lia|].
    exists c'. split; [done|]. subst c2'; simpl in *.
    assert (Hdt : DryRun c1 = DryRun c ∧ trace c1 = trace c)
      by (subst c1; by destruct (serverHas _)).
    destruct Hdt as [Hd1 Ht1].
    split; [congruence|]. split; [congruence|]. split; [lia|].
    intros o. rewrite Hu, elem_of_cons. subst c1.
    destruct (serverHas (Oid p)) eqn:Hp; simpl; unfold StringSet.Add.
    + rewrite elem_of_union, elem_of_singleton. split.
      * intros [[->|?]|[? ?]]; [right; split; [by left|done] | by left |].
        right. split; [by right | done].
      * intros [?|[[->|?] ?]]; [left; by right | left; by left |].
        right. by split.
    + split.
      * intros [?|[? ?]]; [by left | right; split; [by right|done]].
      * intros [?|[[->|?] ?]]; [by left | congruence | right; by split].
Qed.

Lemma skipUploaded_run miss : ∀ ups c,
  skipUploaded miss ups c
  = ({| DryRun := DryRun c; uploadedOids := uploadedOids c; cwg := cwg c;
        trace := trace c
                 ++ (EvTqSkip ∘ Size
                     <$> List.filter (λ p, HasUploaded c (Oid p)) miss) |},
     ups ++ List.filter (λ p, negb (HasUploaded c (Oid p))) miss).
Proof.
  induction miss as [|p miss IH]; intros ups c; simpl.
  - rewrite !app_nil_r. by destruct c.
  - destruct (HasUploaded c (Oid p)) eqn:Hp; simpl; rewrite IH; simpl.
    + by rewrite <- (assoc_L (++)).
    + by rewrite <- (assoc_L (++)).
Qed.

Lemma enqueueAll_frame l : ∀ c,
  trace (ctxOf (enqueueAll l c)) = trace c ++ enqueueTrace l
  ∧ DryRun (ctxOf (enqueueAll l c)) = DryRun c
  ∧ cwg (ctxOf (enqueueAll l c)) = cwg c.
Proof.
  induction l as [|p l IH]; intros c; simpl.
  - by rewrite app_nil_r.
  - unfold bind, emit. simpl.
    destruct (uploadTransfer (Oid p) (Name p)) as [t|err]; simpl.
    + match goal with |- context [enqueueAll l ?c1] =>
        destruct (IH c1) as (-> & -> & ->) end.
      simpl. by rewrite <- !(assoc_L (++)).
    + by destruct err.
Qed.

Lemma enqueueAll_uploaded l : ∀ c c',
  enqueueAll l c = Returns tt c' →
  ∀ o, o ∈ uploadedOids c' ↔ o ∈ uploadedOids c ∨ o ∈ Oid <$> l.
Proof.
  narrow.
  induction l as [|p l IH]; intros c c'; simpl.
  - intros [= <-] o. rewrite elem_of_nil. naive_solver.
  - unfold bind, emit. simpl.
    destruct (uploadTransfer (Oid p) (Name p)) as [t|err]; simpl.
    + intros H o. rewrite (IH _ _ H o). simpl. unfold StringSet.Add.
      rewrite elem_of_union, elem_of_singleton, elem_of_cons. naive_solver.
    + by destruct err.
Qed.

Lemma enqueueAll_app l1 l2 : ∀ c,
  enqueueAll (l1 ++ l2) c = (enqueueAll l1 ;;; enqueueAll l2) c.
Proof.
  induction l1 as [|p l1 IH]; intros c; simpl; [done|].
  unfold bind, emit. simpl.
  destruct (uploadTransfer (Oid p) (Name p)) as [t|err]; simpl.
  - rewrite IH. done.
  - by destruct err.
Qed.

Lemma enqueueTrace_resolution l o n :
  EvUploadTransfer o n ∈ enqueueTrace l → ∃ p, p ∈ l ∧ Oid p = o ∧ Name p = n.
Proof.
  induction l as [|p l IH]; simpl; [by intros ?%elem_of_nil|].
  intros [[= -> ->]|H]%elem_of_cons; [exists p; split; [by left|done]|].
  destruct (uploadTransfer (Oid p) (Name p)); [|by apply elem_of_nil in H].
  apply elem_of_cons in H as [[=]|H].
  destruct (IH H) as (q & ? & ? & ?). exists q. split; [by right|done].
Qed.

Lemma enqueueTrace_add l n pa o sz :
  EvTqAdd n pa o sz ∈ enqueueTrace l →
  ∃ p, p ∈ l ∧ uploadTransfer (Oid p) (Name p) = inl (mkTransfer n pa o sz).
Proof.
  induction l as [|p l IH]; simpl; [by intros ?%elem_of_nil|].
  intros [[=]|H]%elem_of_cons.
  destruct (uploadTransfer (Oid p) (Name p)) as [t|] eqn:Ht;
    [|by apply elem_of_nil in H].
  apply elem_of_cons in H as [[= -> -> -> ->]|H].
  - exists p. split; [by left|]. by destruct t.
  - destruct (IH H) as (q & ? & ?). exists q. split; [by right|done].
Qed.

(** The dry run: one notice per pointer whose id is new when the loop
    reaches it, and every id of the input ends up uploaded. *)
Lemma printPushes_run ps : ∀ c,
  ∃ c', printPushes ps c = Returns tt c'
        ∧ DryRun c' = DryRun c
        ∧ cwg c' = cwg c
        ∧ trace c' = trace c ++ (pushNotice <$> firstNew (uploadedOids c) ps)
        ∧ uploadedOids c' = uploadedOids c ∪ list_to_set (Oid <$> ps).
Proof.
  narrow.
  induction ps as [|p ps IH]; intros c; simpl.
  - exists c. rewrite app_nil_r. repeat split; try done. set_solver.
  - unfold HasUploaded, StringSet.Contains. case_bool_decide as Hp.
    + destruct (IH c) as (c' & -> & Hd & Hw & Ht & Hu).
      exists c'. repeat split; try done. rewrite Hu. set_solver.
    + unfold bind, emit. simpl.
      match goal with |- context [printPushes ps ?c1] =>
        destruct (IH c1) as (c' & -> & Hd & Hw & Ht & Hu) end.
      simpl in *. exists c'. repeat split; try done.
      * rewrite Ht. unfold StringSet.Add. by rewrite <- (assoc_L (++)).
      * rewrite Hu. unfold StringSet.Add. set_solver.
Qed.

Lemma printPushes_app ps qs : ∀ c,
  printPushes (ps ++ qs) c = (printPushes ps ;;; printPushes qs) c.
Proof.
  induction ps as [|p ps IH]; intros c; [done|].
  unfold bind in *. simpl.
  destruct (HasUploaded c (Oid p)); [apply IH|].
  unfold emit. simpl. apply IH.
Qed.

Lemma fullErrors_run errs : ∀ c,
  fullErrors errs c
  = Returns tt {| DryRun := DryRun c; uploadedOids := uploadedOids c;
                  cwg := cwg c;
                  trace := trace c ++ (EvFullError <$> errs) |}.
Proof.
  induction errs as [|err errs IH]; intros c; simpl.
  - rewrite app_nil_r. by destruct c.
  - unfold bind, emit. rewrite IH. simpl. by rewrite <- (assoc_L (++)).
Qed.

(** ** The uploaded set only grows *)

Lemma grows_ret {A} (a : A) : grows (ret a).
Proof. by intros c. Qed.

Lemma grows_halt {A} h : grows (@halt A h).
Proof. by intros c. Qed.

Lemma grows_emit e : grows (emit e).
Proof. by intros c. Qed.

Lemma grows_bind {A B} (m : Run A) (k : A → Run B) :
  grows m → (∀ a, grows (k a)) → grows (bind m k).
Proof.
  intros Hm Hk c. unfold bind. specialize (Hm c).
  destruct (m c) as [a c1|h c1]; simpl in *; [|done].
  etrans; [exact Hm | apply Hk].
Qed.

Lemma grows_SetUploaded oid : grows (λ c, Returns tt (SetUploaded oid c)).
Proof. narrow. intros c. simpl. unfold StringSet.Add. set_solver. Qed.

Lemma grows_cwgAdd delta : grows (cwgAdd delta).
Proof. intros c. unfold cwgAdd. by destruct (_ <? 0). Qed.

Lemma grows_cwgWait : grows cwgWait.
Proof. intros c. unfold cwgWait. by destruct (_ =? 0). Qed.

Lemma grows_notify oid ok : grows (notify oid ok).
Proof.
  narrow.
  intros c. unfold notify, cwgDone.
  etrans; [|apply grows_cwgAdd]. destruct ok; [|done].
  simpl. unfold StringSet.Add. set_solver.
Qed.

Create HintDb grows.

#[local] Hint Resolve grows_ret grows_halt grows_emit grows_SetUploaded
  grows_cwgAdd grows_cwgWait grows_notify : grows.

Ltac grows_step :=
  repeat first [ solve [auto with grows] | apply grows_bind; [|intros ?] ].

Lemma grows_answer l : grows (answer l).
Proof. induction l; simpl; grows_step. Qed.

Lemma grows_cqAddAll l : grows (cqAddAll l).
Proof. induction l; simpl; grows_step. Qed.

#[local] Hint Resolve grows_answer grows_cqAddAll : grows.

Lemma grows_checkMissing miss ms : grows (checkMissing miss ms).
Proof. unfold checkMissing. grows_step. Qed.

Lemma grows_prepareUpload ps : grows (prepareUpload ps).
Proof.
  intros c. unfold prepareUpload. rewrite classify_run.
  match goal with |- context [checkMissing ?m ?ms ?c1] =>
    pose proof (grows_checkMissing m ms c1) as H;
    destruct (checkMissing m ms c1) as [[] c2|h c2] end; simpl in *; [|done].
  by rewrite skipUploaded_run.
Qed.

Lemma grows_printPushes ps : grows (printPushes ps).
Proof.
  induction ps as [|p ps IH]; simpl; [grows_step|].
  intros c. destruct (HasUploaded c (Oid p)); [apply IH|].
  revert c. grows_step.
Qed.

Lemma grows_enqueueAll ps : grows (enqueueAll ps).
Proof.
  induction ps as [|p ps IH]; simpl; [grows_step|].
  apply grows_bind; [grows_step|]. intros _.
  destruct (uploadTransfer (Oid p) (Name p)) as [t|[]]; simpl; grows_step.
Qed.

#[local] Hint Resolve grows_checkMissing grows_prepareUpload
  grows_printPushes grows_enqueueAll : grows.

Lemma grows_uploadPointers ps : grows (uploadPointers ps).
Proof.
  intros c. unfold uploadPointers.
  destruct (DryRun c); [apply grows_printPushes|].
  revert c. grows_step.
Qed.

Lemma grows_fullErrors errs : grows (fullErrors errs).
Proof. induction errs; simpl; grows_step. Qed.

#[local] Hint Resolve grows_uploadPointers grows_fullErrors : grows.

Lemma grows_Await : grows Await.
Proof.
  unfold Await. apply grows_bind; [grows_step|]. intros _ c.
  generalize (tqErrors (trace c)). intros errs. revert c.
  apply grows_bind; [grows_step|]. intros _.
  destruct (0 <? length errs)%nat; grows_step.
Qed.

#[local] Hint Resolve grows_Await : grows.

Lemma grows_uploadRefs refs : grows (uploadRefs refs).
Proof.
  induction refs as [|ref refs IH]; simpl; [grows_step|].
  destruct (scanLeftOrAll (refName ref)) as [pointers [err|]]; grows_step.
Qed.

#[local] Hint Resolve grows_uploadRefs : grows.

Lemma grows_uploadsBetweenRefAndRemote remote refnames :
  grows (uploadsBetweenRefAndRemote remote refnames).
Proof.
  unfold uploadsBetweenRefAndRemote.
  destruct (RemoteForPush remote); [grows_step|].
  destruct (refsByNames refnames); grows_step.
Qed.

Lemma grows_uploadsWithObjectIDs oids : grows (uploadsWithObjectIDs oids).
Proof. unfold uploadsWithObjectIDs. grows_step. Qed.

(** ** Claims that do not depend on the check queue *)

(** C7: [Await] waits for the upload queue to drain, reports every error
    the queue has accumulated, and ends the process with exit status 2 if
    and only if that list is not empty; with an empty list it returns.
    Status 2 differs from the status 1 with which the push command ends
    on a usage error. *)
Theorem Await_exit_status c :
  let errs := tqErrors (trace c ++ [EvTqWait]) in
  let c' := {| DryRun := DryRun c; uploadedOids := uploadedOids c;
               cwg := cwg c;
               trace := trace c ++ [EvTqWait] ++ (EvFullError <$> errs) |} in
  Await c = match errs with
            | [] => Returns tt c'
            | _ :: _ => Halts (OsExit 2) c'
            end
  ∧ (Await c = Halts (OsExit 2) c' ↔ errs ≠ [])
  ∧ (Await c = Returns tt c' ↔ errs = [])
  ∧ (∀ h c1, Await c = Halts h c1 → h = OsExit 2 ∧ errs ≠ [])
  ∧ (∃ printed, pushCommand [] = PushStops printed (OsExit 1))
  ∧ OsExit 2 ≠ OsExit 1.
Proof.
  intros errs c'.
  assert (Hrun : Await c = match errs with
                           | [] => Returns tt c'
                           | _ :: _ => Halts (OsExit 2) c'
                           end).
  { unfold Await, bind, emit. simpl. fold errs. rewrite fullErrors_run.
    simpl. rewrite <- (assoc_L (++)). fold c'. by destruct errs. }
  split; [exact Hrun|]. rewrite Hrun.
  split; [destruct errs; split; congruence|].
  split; [destruct errs; split; congruence|].
  split; [intros h c1; destruct errs; [discriminate|]; by intros [= <- _]|].
  split; [by eexists | discriminate].
Qed.

(** C8: in a dry run, for every input pointer whose object id is not in
    the uploaded set when the loop reaches it, the notice
    [push <oid> => <name>] is printed and the id is marked uploaded;
    nothing but printing happens: the upload queue, the check queue and
    the local store are not touched and [prepareUpload] is not entered. *)
Theorem dry_run_prints_and_marks ps c :
  DryRun c = true →
  ∃ c' evs,
    uploadPointers ps c = Returns tt c'
    ∧ uploadPointers ps c = printPushes ps c
    ∧ trace c' = trace c ++ evs
    ∧ evs = pushNotice <$> firstNew (uploadedOids c) ps
    ∧ Forall (λ e, isPrint e = true) evs
    ∧ DryRun c' = true
    ∧ cwg c' = cwg c
    ∧ uploadedOids c' = uploadedOids c ∪ list_to_set (Oid <$> ps)
    ∧ (∀ p, p ∈ ps → Oid p ∈ uploadedOids c')
    ∧ (∀ before p after cb,
         ps = before ++ p :: after →
         printPushes before c = Returns tt cb →
         HasUploaded cb (Oid p) = false →
         EvPrint "push %s => %s" [Oid p; Name p] ∈ evs)
    ∧ (∀ p, p ∈ ps → Oid p ∉ uploadedOids c →
            ∃ q, q ∈ ps ∧ Oid q = Oid p
                 ∧ EvPrint "push %s => %s" [Oid q; Name q] ∈ evs).
Proof.
  intros Hd.
  destruct (printPushes_run ps c) as (c' & Hrun & Hd' & Hw & Ht & Hu).
  assert (Hup : uploadPointers ps c = printPushes ps c).
  { unfold uploadPointers. by rewrite Hd. }
  exists c', (pushNotice <$> firstNew (uploadedOids c) ps).
  split; [by rewrite Hup|]. split; [exact Hup|]. split; [exact Ht|].
  split; [done|]. split.
  { apply Forall_fmap, Forall_forall. by intros p _. }
  split; [congruence|]. split; [exact Hw|]. split; [exact Hu|]. split.
  { intros p Hp. rewrite Hu, elem_of_union, elem_of_list_to_set.
    right. by apply list_elem_of_fmap_2. }
  split.
  - intros before p after cb -> Hb Hnew.
    destruct (printPushes_run before c) as (cb' & Hb' & _ & _ & _ & Hub).
    rewrite Hb in Hb'. injection Hb' as <-.
    rewrite firstNew_app, fmap_app. apply elem_of_app. right.
    simpl. rewrite bool_decide_false; [rewrite fmap_cons; by left|].
    unfold HasUploaded, StringSet.Contains in Hnew.
    apply bool_decide_eq_false in Hnew. rewrite Hub in Hnew. set_solver.
  - intros p Hp Hn.
    assert (Oid p ∈ Oid <$> firstNew (uploadedOids c) ps) as Hq.
    { apply firstNew_oids. split; [done | by apply list_elem_of_fmap_2]. }
    apply list_elem_of_fmap_1 in Hq as (q & Hqp & Hq).
    exists q. split; [by apply firstNew_elem in Hq as [? _]|].
    split; [done|]. by apply (list_elem_of_fmap_2 pushNotice).
Qed.

(** C10: in a dry run a list with several pointers of one object id gets
    exactly one notice for that id within the call, each id being marked
    uploaded right after its notice; the de-duplication carries over to
    the following calls on the same context. *)
Theorem dry_run_one_notice_per_oid ps c :
  DryRun c = true →
  ∃ c' evs,
    uploadPointers ps c = Returns tt c'
    ∧ trace c' = trace c ++ evs
    ∧ NoDup (pushNotices evs)
    ∧ (∀ o, o ∈ Oid <$> ps → o ∉ uploadedOids c →
            count_occ String.string_dec (pushNotices evs) o = 1%nat)
    ∧ (∀ o, o ∈ uploadedOids c →
            count_occ String.string_dec (pushNotices evs) o = 0%nat)
    ∧ ∀ qs, ∃ c'' evs2,
        uploadPointers qs c' = Returns tt c''
        ∧ trace c'' = trace c' ++ evs2
        ∧ (∀ o, o ∈ Oid <$> ps → o ∉ pushNotices evs2)
        ∧ NoDup (pushNotices (evs ++ evs2))
        ∧ uploadPointers (ps ++ qs) c = Returns tt c''.
Proof.
  narrow.
  intros Hd. set (U := uploadedOids c).
  destruct (printPushes_run ps c) as (c' & Hrun & Hd' & Hw & Ht & Hu).
  assert (Hup : ∀ l c0, DryRun c0 = true →
                        uploadPointers l c0 = printPushes l c0).
  { intros l c0 H0. unfold uploadPointers. by rewrite H0. }
  exists c', (pushNotice <$> firstNew U ps).
  split; [by rewrite Hup|]. split; [exact Ht|].
  rewrite pushNotices_notices. split; [apply firstNew_NoDup|]. split.
  { intros o Ho Hn. apply NoDup_count_occ_1; [apply firstNew_NoDup|].
    by apply firstNew_oids. }
  split.
  { intros o Ho. apply count_occ_not_In. rewrite <- list_elem_of_In.
    rewrite firstNew_oids. tauto. }
  intros qs.
  destruct (printPushes_run qs c') as (c'' & Hrun2 & Hd2 & Hw2 & Ht2 & Hu2).
  exists c'', (pushNotice <$> firstNew (uploadedOids c') qs).
  split; [rewrite Hup; [done | congruence]|]. split; [exact Ht2|].
  rewrite pushNotices_app, !pushNotices_notices. split.
  { intros o Ho [Hn _]%firstNew_oids. apply Hn. rewrite Hu.
    apply elem_of_union. right. by apply elem_of_list_to_set. }
  split.
  { rewrite <- fmap_app. fold U in Hu. rewrite Hu.
    replace (U ∪ list_to_set (Oid <$> ps))
      with (list_to_set (Oid <$> ps) ∪ U : gset string) by set_solver.
    rewrite <- firstNew_app. apply firstNew_NoDup. }
  rewrite Hup by done. rewrite printPushes_app. unfold bind.
  by rewrite Hrun.
Qed.

Lemma pushCommand_no_args :
  pushCommand []
  = PushStops
      [EvPrint "Specify a remote and a remote branch name (`git lfs push origin master`)" []]
      (OsExit 1).
Proof. reflexivity. Qed.

Lemma pushCommand_invalid_remote remote rest err :
  requireGitVersion = None → ValidateRemote remote = Some err →
  pushCommand (remote :: rest)
  = PushStops [] (ExitCall "Invalid remote name %q" [remote]).
Proof. intros Hg Hv. unfold pushCommand. by rewrite Hg, Hv. Qed.

Lemma pushCommand_object_id_without_ids remote :
  requireGitVersion = None → ValidateRemote remote = None →
  pushObjectIDs = true →
  pushCommand [remote]
  = PushRuns remote
      (Returns tt
         {| DryRun := pushDryRun; uploadedOids := ∅; cwg := 0;
            trace := [EvPrint "Usage: git lfs push --object-id <remote> <lfs-object-id> [lfs-object-id] ..." []] |}).
Proof. intros Hg Hv Ho. unfold pushCommand. by rewrite Hg, Hv, Ho. Qed.

(** ** Claims about the Prepare phase and the upload phase *)

(** The check queue answers every transfer it was given, once. *)
Hypothesis answerOrder_perm : ∀ l, answerOrder l ≡ₚ l.

Lemma checkMissing_run miss ms c :
  cwg c = 0 →
  ∃ c', checkMissing miss ms c = Returns tt c'
        ∧ DryRun c' = DryRun c
        ∧ trace c' = trace c ++ (EvCqAdd <$> miss)
        ∧ cwg c' = 0
        ∧ ∀ o, o ∈ uploadedOids c'
               ↔ o ∈ uploadedOids c ∨ (o ∈ Oid <$> miss ∧ serverHas o = true).
Proof.
  intros Hc. unfold checkMissing, bind, cwgAdd. rewrite Hc.
  destruct (Z.ltb_spec (0 + Z.of_nat (length miss)) 0) as [?|_]; [lia|].
  rewrite cqAddAll_run. simpl.
  match goal with |- context [answer _ ?c2] => set (c2' := c2) end.
  destruct (answer_run (answerOrder miss) c2')
    as (c' & -> & Hd & Ht & Hw & Hu).
  { subst c2'; simpl. rewrite (Permutation_length (answerOrder_perm miss)). lia. }
  subst c2'; simpl in *.
  rewrite (Permutation_length (answerOrder_perm miss)) in Hw.
  unfold cwgWait. replace (cwg c') with 0 by lia. simpl.
  exists c'. repeat split; try done; [lia|..]; rewrite Hu;
    (intros [?|[Ho ?]]; [by left|right; split; [|done]]);
    [by rewrite <- (answerOrder_perm miss) | by rewrite (answerOrder_perm miss)].
Qed.

(** [prepareUpload] on a context whose wait group is at rest: it returns,
    and this is what it returns and leaves behind. *)
Lemma prepareUpload_run ps c :
  cwg c = 0 →
  let U := uploadedOids c in
  ∃ c', prepareUpload ps c
        = Returns (foundLocally U ps ++ stillMissing U ps) c'
        ∧ DryRun c' = DryRun c
        ∧ cwg c' = 0
        ∧ trace c' = trace c ++ flat_map estimate (considered U ps)
                     ++ (EvCqAdd <$> toCheck U ps)
                     ++ (EvTqSkip ∘ Size <$> confirmedRemote U ps)
        ∧ ∀ o, o ∈ uploadedOids c'
               ↔ o ∈ U ∨ (o ∈ Oid <$> toCheck U ps ∧ serverHas o = true).
Proof.
  intros Hc U. unfold prepareUpload.
  rewrite classify_run. unfold StringSet.NewStringSet.
  rewrite (left_id_L ∅ (∪)). simpl. fold U.
  fold (considered U ps). fold (foundLocally U ps). fold (toCheck U ps).
  match goal with |- context [checkMissing _ ?ms ?c1] =>
    destruct (checkMissing_run (toCheck U ps) ms c1 Hc)
      as (c2 & -> & Hd & Ht & Hw & Hu) end.
  simpl in *. rewrite skipUploaded_run.
  assert (Hhas : ∀ p, In p (toCheck U ps) →
                      HasUploaded c2 (Oid p) = onServer p).
  { intros p Hp. unfold HasUploaded, StringSet.Contains, onServer.
    assert (Hn : Oid p ∉ U).
    { apply filter_In in Hp as [Hp _]. apply list_elem_of_In in Hp.
      by apply firstNew_elem in Hp as [_ ?]. }
    apply list_elem_of_In in Hp.
    destruct (serverHas (Oid p)) eqn:Hs.
    - apply bool_decide_eq_true. apply Hu. right.
      split; [by apply list_elem_of_fmap_2 | done].
    - apply bool_decide_eq_false. rewrite Hu. intros [?|[_ ?]]; congruence. }
  rewrite (filter_ext_in (λ p, HasUploaded c2 (Oid p)) onServer)
    by exact Hhas.
  rewrite (filter_ext_in (λ p, negb (HasUploaded c2 (Oid p)))
             (λ p, negb (onServer p)))
    by (intros p Hp; by rewrite Hhas).
  eexists. split; [reflexivity|]. simpl.
  rewrite Ht, <- !(assoc_L (++)). done.
Qed.

Lemma uploadPointers_live ps c :
  DryRun c = false → cwg c = 0 →
  ∃ c1, prepareUpload ps c
        = Returns (foundLocally (uploadedOids c) ps
                   ++ stillMissing (uploadedOids c) ps) c1
        ∧ uploadPointers ps c
          = enqueueAll (foundLocally (uploadedOids c) ps
                        ++ stillMissing (uploadedOids c) ps) c1.
Proof.
  intros Hd Hc. destruct (prepareUpload_run ps c Hc) as (c1 & Hrun & _).
  exists c1. split; [done|]. unfold uploadPointers, bind.
  by rewrite Hd, Hrun.
Qed.

(** The events of a whole [uploadPointers] on a context at rest. *)
Lemma uploadPointers_trace ps c :
  cwg c = 0 →
  let U := uploadedOids c in
  trace (ctxOf (uploadPointers ps c))
  = trace c
    ++ (if DryRun c then pushNotice <$> firstNew U ps
        else flat_map estimate (considered U ps)
             ++ (EvCqAdd <$> toCheck U ps)
             ++ (EvTqSkip ∘ Size <$> confirmedRemote U ps)
             ++ enqueueTrace (foundLocally U ps ++ stillMissing U ps)).
Proof.
  intros Hc U. destruct (DryRun c) eqn:Hd.
  - unfold uploadPointers. rewrite Hd.
    destruct (printPushes_run ps c) as (c' & Hp & _ & _ & Ht & _).
    rewrite Hp. exact Ht.
  - destruct (uploadPointers_live ps c Hd Hc) as (c1 & Hrun & ->).
    destruct (prepareUpload_run ps c Hc) as (c1' & Hrun' & _ & _ & Ht & _).
    rewrite Hrun in Hrun'. injection Hrun' as <-.
    destruct (enqueueAll_frame
                (foundLocally (uploadedOids c) ps
                 ++ stillMissing (uploadedOids c) ps) c1) as (-> & _).
    rewrite Ht. fold U. by rewrite <- !(assoc_L (++)).
Qed.

(** Nothing is done for an object id that is already in the uploaded
    set. *)
Lemma uploadPointers_ignores_uploaded qs c o :
  cwg c = 0 → o ∈ uploadedOids c →
  ∃ evs, trace (ctxOf (uploadPointers qs c)) = trace c ++ evs
         ∧ (∀ q, Oid q = o → EvCqAdd q ∉ evs)
         ∧ (∀ n, EvUploadTransfer o n ∉ evs)
         ∧ (∀ n pa o' sz, EvTqAdd n pa o' sz ∈ evs →
                          ∃ r, r ∈ qs ∧ Oid r ≠ o
                               ∧ uploadTransfer (Oid r) (Name r)
                                 = inl (mkTransfer n pa o' sz))
         ∧ (∀ n, EvPrint "push %s => %s" [o; n] ∉ evs).
Proof.
  intros Hc Ho. eexists. split; [apply (uploadPointers_trace qs c Hc)|].
  set (U := uploadedOids c) in *.
  assert (Hcons : ∀ q, q ∈ considered U qs → Oid q ≠ o).
  { intros q [_ Hq]%firstNew_elem Heq. by rewrite Heq in Hq. }
  assert (Hready : ∀ q, q ∈ foundLocally U qs ++ stillMissing U qs →
                        q ∈ qs ∧ Oid q ≠ o).
  { intros q Hq. assert (q ∈ considered U qs) as Hq'.
    { apply elem_of_app in Hq as [Hq|Hq].
      - unfold foundLocally in Hq. by apply elem_of_filter in Hq as [? _].
      - unfold stillMissing, toCheck in Hq.
        apply elem_of_filter in Hq as [Hq _].
        by apply elem_of_filter in Hq as [? _]. }
    split; [by apply firstNew_elem in Hq' as [? _] | by apply Hcons]. }
  destruct (DryRun c).
  - repeat split.
    + intros q _ (? & ? & _)%list_elem_of_fmap_1. discriminate.
    + intros n (? & ? & _)%list_elem_of_fmap_1. discriminate.
    + intros n pa o' sz (? & ? & _)%list_elem_of_fmap_1. discriminate.
    + intros n (q & [= -> ->] & Hq)%list_elem_of_fmap_1.
      by apply (Hcons q).
  - repeat split.
    + intros q Hq. rewrite !elem_of_app.
      intros [H|[H|[H|H]]].
      * apply estimate_elem in H as (? & _ & [?|?]); discriminate.
      * apply list_elem_of_fmap_1 in H as (r & [= ->] & Hr).
        apply (Hcons r); [|done]. unfold toCheck in Hr.
        by apply elem_of_filter in Hr as [? _].
      * apply list_elem_of_fmap_1 in H as (? & ? & _). discriminate.
      * clear -H. induction (_ ++ _) as [|r l IH]; simpl in H;
          [by apply elem_of_nil in H|].
        apply elem_of_cons in H as [[=]|H].
        destruct (uploadTransfer _ _); [|by apply elem_of_nil in H].
        apply elem_of_cons in H as [[=]|H]. by apply IH.
    + intros n. rewrite !elem_of_app. intros [H|[H|[H|H]]].
      * apply estimate_elem in H as (? & _ & [?|?]); discriminate.
      * apply list_elem_of_fmap_1 in H as (? & ? & _). discriminate.
      * apply list_elem_of_fmap_1 in H as (? & ? & _). discriminate.
      * apply enqueueTrace_resolution in H as (r & Hr & Hro & _).
        by apply Hready in Hr as [_ ?].
    + intros n pa o' sz. rewrite !elem_of_app. intros [H|[H|[H|H]]].
      * apply estimate_elem in H as (? & _ & [?|?]); discriminate.
      * apply list_elem_of_fmap_1 in H as (? & ? & _). discriminate.
      * apply list_elem_of_fmap_1 in H as (? & ? & _). discriminate.
      * apply enqueueTrace_add in H as (r & Hr & Hres).
        apply Hready in Hr as [? ?]. by exists r.
    + intros n. rewrite !elem_of_app. intros [H|[H|[H|H]]].
      * apply estimate_elem in H as (? & _ & [?|?]); discriminate.
      * apply list_elem_of_fmap_1 in H as (? & ? & _). discriminate.
      * apply list_elem_of_fmap_1 in H as (? & ? & _). discriminate.
      * clear -H. induction (_ ++ _) as [|r l IH]; simpl in H;
          [by apply elem_of_nil in H|].
        apply elem_of_cons in H as [[=]|H].
        destruct (uploadTransfer _ _); [|by apply elem_of_nil in H].
        apply elem_of_cons in H as [[=]|H]. by apply IH.
Qed.

Lemma prepareUpload_nothing_new ps c :
  cwg c = 0 → (∀ p, p ∈ ps → Oid p ∈ uploadedOids c) →
  prepareUpload ps c = Returns [] c.
Proof.
  intros Hc Hall.
  destruct (prepareUpload_run ps c Hc) as (c' & Hrun & Hd & Hw & Ht & Hu).
  unfold foundLocally, stillMissing, confirmedRemote, toCheck, considered
    in *.
  rewrite (firstNew_all_seen _ _ Hall) in *. simpl in *.
  rewrite Hrun. f_equal. apply context_eq; try done.
  - congruence.
  - by rewrite Ht, app_nil_r.
  - intros o. rewrite Hu. split; [intros [?|[[]%elem_of_nil _]]|]; auto.
Qed.

(** C1: the Prepare phase submits exactly one existence check per distinct
    object id that is not yet in the uploaded set and is locally absent,
    and none for a pointer that is locally present with matching size; two
    pointers sharing an object id give at most one submission.  The
    pointers handed to the check queue are exactly the pointers of the
    input that are the first with their object id, whose id is not yet
    uploaded and that [ObjectExistsOfSize] does not find; their ids are
    pairwise distinct.  When pointers sharing an id agree on local
    presence, the same holds of every input pointer. *)
Theorem prepareUpload_checks_once ps c :
  cwg c = 0 →
  ∃ ready c' evs,
    prepareUpload ps c = Returns ready c'
    ∧ trace c' = trace c ++ evs
    ∧ NoDup (Oid <$> cqAdds evs)
    ∧ (∀ p, p ∈ cqAdds evs
            ↔ (Oid p ∉ uploadedOids c) ∧ firstWith (Oid p) ps = Some p
              ∧ localPresent p = false)
    ∧ (∀ o, (count_occ String.string_dec (Oid <$> cqAdds evs) o ≤ 1)%nat)
    ∧ (∀ o p, o ∉ uploadedOids c → firstWith o ps = Some p →
              localPresent p = false →
              count_occ String.string_dec (Oid <$> cqAdds evs) o = 1%nat)
    ∧ (∀ p, localPresent p = true → p ∉ cqAdds evs)
    ∧ ((∀ p q, p ∈ ps → q ∈ ps → Oid p = Oid q →
               localPresent p = localPresent q) →
       (∀ p, p ∈ ps → Oid p ∉ uploadedOids c → localPresent p = false →
             count_occ String.string_dec (Oid <$> cqAdds evs) (Oid p) = 1%nat)
       ∧ (∀ p, p ∈ ps → localPresent p = true →
               Oid p ∉ Oid <$> cqAdds evs)).
Proof.
  intros Hc.
  destruct (prepareUpload_run ps c Hc) as (c' & Hrun & _ & _ & Ht & _).
  set (U := uploadedOids c) in *.
  eexists _, c', _. split; [exact Hrun|]. split; [exact Ht|].
  assert (Hq : cqAdds (flat_map estimate (considered U ps)
                       ++ (EvCqAdd <$> toCheck U ps)
                       ++ (EvTqSkip ∘ Size <$> confirmedRemote U ps))
               = toCheck U ps).
  { rewrite !cqAdds_app.
    destruct (estimate_calls (considered U ps)) as (_ & -> & _).
    destruct (cqAdd_calls (toCheck U ps)) as (_ & -> & _).
    destruct (tqSkip_calls (confirmedRemote U ps)) as (_ & -> & _).
    by rewrite app_nil_r. }
  rewrite Hq. clear Hq.
  assert (Hone : ∀ o p, o ∉ U → firstWith o ps = Some p →
                        localPresent p = false →
                        count_occ String.string_dec (Oid <$> toCheck U ps) o
                        = 1%nat).
  { intros o p Ho Hf Hl. apply NoDup_count_occ_1; [apply toCheck_NoDup|].
    destruct (firstWith_Some _ _ _ Hf) as [_ <-].
    apply list_elem_of_fmap_2, toCheck_elem. done. }
  split; [apply toCheck_NoDup|]. split; [apply toCheck_elem|].
  split; [intros o; apply NoDup_count_occ_le, toCheck_NoDup|].
  split; [exact Hone|]. split.
  { intros p Hl [_ [_ Hl']]%toCheck_elem. congruence. }
  intros Hagree. split.
  - intros p Hp Hu Hl.
    destruct (firstWith_exists ps p Hp) as (q & Hf & Hq & Hqp).
    apply (Hone (Oid p) q Hu Hf). by rewrite (Hagree q p Hq Hp Hqp).
  - intros p Hp Hl [q [Hqp Hq]]%list_elem_of_fmap_1.
    apply toCheck_elem in Hq as (_ & Hf & Hlq).
    destruct (firstWith_Some _ _ _ Hf) as [Hqin _].
    rewrite (Hagree q p Hqin Hp (eq_sym Hqp)) in Hlq. congruence.
Qed.

(** C2: in every run of the Prepare phase the meter's Add is called
    exactly once, with the pointer's size, for each distinct pointer not
    already uploaded, before the pointer is classified, and Skip exactly
    once for each pointer later confirmed remote; the sizes of the ready
    pointers and the skipped sizes add up to the sizes of all distinct
    pointers considered. *)
Theorem prepareUpload_accounting ps c :
  cwg c = 0 →
  let U := uploadedOids c in
  ∃ ready c' evs rest,
    prepareUpload ps c = Returns ready c'
    ∧ trace c' = trace c ++ evs
    ∧ (∀ p, p ∈ considered U ps
            ↔ (Oid p ∉ U) ∧ firstWith (Oid p) ps = Some p)
    ∧ NoDup (Oid <$> considered U ps)
    ∧ meterAdds evs = Size <$> considered U ps
    ∧ evs = flat_map estimate (considered U ps) ++ rest
    ∧ meterAdds rest = []
    ∧ (∀ oid size, EvObjectExistsOfSize oid size ∉ rest)
    ∧ tqSkips evs = Size <$> confirmedRemote U ps
    ∧ (∀ p, p ∈ confirmedRemote U ps
            ↔ p ∈ toCheck U ps ∧ Oid p ∈ uploadedOids c')
    ∧ sumZ (Size <$> ready) + sumZ (tqSkips evs)
      = sumZ (Size <$> considered U ps).
Proof.
  intros Hc U.
  destruct (prepareUpload_run ps c Hc) as (c' & Hrun & _ & _ & Ht & Hu).
  fold U in Hrun, Ht, Hu.
  destruct (prepare_calls U ps) as (Hm & _ & Hs & _).
  eexists _, c', _, _. split; [exact Hrun|]. split; [exact Ht|].
  split; [intros p; apply firstNew_first|].
  split; [apply considered_NoDup|]. split; [exact Hm|].
  split; [reflexivity|]. split.
  { rewrite meterAdds_app.
    destruct (cqAdd_calls (toCheck U ps)) as (-> & _).
    by destruct (tqSkip_calls (confirmedRemote U ps)) as (-> & _). }
  split.
  { intros oid size [H|H]%elem_of_app;
      apply list_elem_of_fmap_1 in H as (? & ? & _); discriminate. }
  split; [exact Hs|]. split.
  { intros p. unfold confirmedRemote. rewrite elem_of_filter, Hu.
    unfold onServer. split; [|intros [Hp [Hin|[_ ?]]]; [|done]].
    - intros [Hp Hsrv]. split; [done|]. right.
      split; [by apply list_elem_of_fmap_2 | done].
    - apply toCheck_elem in Hp as [Hn _]. done. }
  rewrite Hs, fmap_app, sumZ_app.
  unfold foundLocally, stillMissing, confirmedRemote, toCheck.
  rewrite (sumZ_filter_split localPresent Size (considered U ps)).
  rewrite (sumZ_filter_split onServer Size
             (List.filter (λ p, negb (localPresent p)) (considered U ps))).
  lia.
Qed.

(** C3: once the wait on the existence checks is over, a to-check pointer
    whose object id is in the uploaded set gets exactly one Skip of its
    size, is not put in the ready list and is not enqueued; any other
    to-check pointer is appended to the ready list.  The callback of the
    check queue adds an object id to the uploaded set exactly when the
    result says that the server has the object. *)
Theorem prepareUpload_skips_confirmed ps c :
  cwg c = 0 →
  let U := uploadedOids c in
  ∃ ready c' evs,
    prepareUpload ps c = Returns ready c'
    ∧ trace c' = trace c ++ evs
    ∧ cqAdds evs = toCheck U ps
    ∧ NoDup (Oid <$> toCheck U ps)
    ∧ tqSkips evs
      = Size <$> List.filter (λ p, HasUploaded c' (Oid p)) (toCheck U ps)
    ∧ ready
      = foundLocally U ps
        ++ List.filter (λ p, negb (HasUploaded c' (Oid p))) (toCheck U ps)
    ∧ (∀ p, p ∈ toCheck U ps → HasUploaded c' (Oid p) = true →
            (p ∉ ready) ∧ Oid p ∉ Oid <$> ready)
    ∧ (∀ p, p ∈ toCheck U ps → HasUploaded c' (Oid p) = false → p ∈ ready)
    ∧ (∀ o, o ∈ uploadedOids c'
            ↔ o ∈ U ∨ (o ∈ Oid <$> toCheck U ps ∧ serverHas o = true))
    ∧ (∀ oid ok c0,
         uploadedOids (ctxOf (notify oid ok c0))
         = if ok then {[oid]} ∪ uploadedOids c0 else uploadedOids c0)
    ∧ (DryRun c = false →
       ∃ evs2,
         trace (ctxOf (uploadPointers ps c)) = trace c' ++ evs2
         ∧ ∀ p, p ∈ toCheck U ps → HasUploaded c' (Oid p) = true →
                (∀ n, EvUploadTransfer (Oid p) n ∉ evs2)
                ∧ (∀ n pa o sz, EvTqAdd n pa o sz ∈ evs2 →
                     ∃ q, q ∈ ready ∧ Oid q ≠ Oid p
                          ∧ uploadTransfer (Oid q) (Name q)
                            = inl (mkTransfer n pa o sz))).
Proof.
  intros Hc U.
  destruct (prepareUpload_run ps c Hc) as (c' & Hrun & _ & _ & Ht & Hu).
  fold U in Hrun, Ht, Hu.
  destruct (prepare_calls U ps) as (_ & Hq & Hs & _).
  assert (Hhas : ∀ p, p ∈ toCheck U ps → HasUploaded c' (Oid p) = onServer p).
  { intros p Hp. unfold HasUploaded, StringSet.Contains, onServer.
    destruct (serverHas (Oid p)) eqn:Hsrv.
    - apply bool_decide_eq_true, Hu. right.
      split; [by apply list_elem_of_fmap_2 | done].
    - apply bool_decide_eq_false. rewrite Hu.
      apply toCheck_elem in Hp as [Hn _]. intros [?|[_ ?]]; congruence. }
  assert (Hf1 : List.filter (λ p, HasUploaded c' (Oid p)) (toCheck U ps)
                = confirmedRemote U ps).
  { apply filter_ext_in. intros p Hp. by apply Hhas, list_elem_of_In. }
  assert (Hf2 : List.filter (λ p, negb (HasUploaded c' (Oid p))) (toCheck U ps)
                = stillMissing U ps).
  { apply filter_ext_in. intros p Hp. f_equal. by apply Hhas, list_elem_of_In. }
  eexists _, c', _. split; [exact Hrun|]. split; [exact Ht|].
  split; [exact Hq|]. split; [apply toCheck_NoDup|].
  split; [by rewrite Hs, Hf1|]. split; [by rewrite Hf2|].
  split.
  { intros p Hp Hup. rewrite (Hhas p Hp) in Hup.
    pose proof (ready_oids U ps p Hp Hup) as Hn.
    split; [|done]. intros Hin. by apply Hn, list_elem_of_fmap_2. }
  split.
  { intros p Hp Hup. rewrite (Hhas p Hp) in Hup.
    apply elem_of_app. right. unfold stillMissing.
    apply elem_of_filter. by rewrite Hup. }
  split; [exact Hu|]. split.
  { intros oid ok c0. unfold notify, cwgDone, cwgAdd.
    destruct ok; simpl; by destruct (_ <? 0). }
  intros Hd. destruct (uploadPointers_live ps c Hd Hc) as (c1 & Hrun1 & ->).
  fold U in Hrun1. rewrite Hrun in Hrun1. injection Hrun1 as <-.
  destruct (enqueueAll_frame (foundLocally U ps ++ stillMissing U ps) c')
    as (Htr & _).
  eexists. split; [exact Htr|].
  intros p Hp Hup. rewrite (Hhas p Hp) in Hup.
  pose proof (ready_oids U ps p Hp Hup) as Hn. split.
  - intros n (q & Hq' & Ho & _)%enqueueTrace_resolution.
    apply Hn. rewrite <- Ho. by apply list_elem_of_fmap_2.
  - intros n pa o sz (q & Hq' & Hr)%enqueueTrace_add.
    exists q. split; [done|]. split; [|done].
    intros Ho. apply Hn. rewrite <- Ho. by apply list_elem_of_fmap_2.
Qed.

(** C4, as the code has it: the ready list is made of the considered
    pointers found in the local store, in input order, followed by the
    considered pointers that are locally absent and that the server does
    not have, in input order.  Input order is kept inside each of the two
    groups; a locally absent survivor comes after every locally present
    one, wherever it stands in the input. *)
Theorem prepareUpload_ready_order ps c :
  cwg c = 0 →
  let U := uploadedOids c in
  ∃ c',
    prepareUpload ps c = Returns (foundLocally U ps ++ stillMissing U ps) c'
    ∧ (foundLocally U ps) `sublist_of` ps
    ∧ (stillMissing U ps) `sublist_of` ps
    ∧ (∀ p, p ∈ foundLocally U ps
            ↔ (Oid p ∉ U) ∧ firstWith (Oid p) ps = Some p
              ∧ localPresent p = true)
    ∧ (∀ p, p ∈ stillMissing U ps
            ↔ (Oid p ∉ U) ∧ firstWith (Oid p) ps = Some p
              ∧ localPresent p = false ∧ serverHas (Oid p) = false)
    ∧ ((∀ p, p ∈ ps → localPresent p = true) →
       (foundLocally U ps ++ stillMissing U ps) `sublist_of` ps)
    ∧ ((∀ p, p ∈ ps → localPresent p = false) →
       (foundLocally U ps ++ stillMissing U ps) `sublist_of` ps).
Proof.
  intros Hc U.
  destruct (prepareUpload_run ps c Hc) as (c' & Hrun & _).
  exists c'. split; [exact Hrun|].
  assert (Hsub : ∀ f, (List.filter f (considered U ps)) `sublist_of` ps).
  { intros f. etrans; [apply filter_sublist | apply firstNew_sublist]. }
  split; [apply Hsub|]. split.
  { unfold stillMissing, toCheck. etrans; [apply filter_sublist | apply Hsub]. }
  split.
  { intros p. unfold foundLocally, considered.
    rewrite elem_of_filter, firstNew_first. naive_solver. }
  split.
  { intros p. unfold stillMissing. rewrite elem_of_filter, toCheck_elem.
    unfold onServer. rewrite negb_true_iff. naive_solver. }
  split.
  - intros Hall.
    assert (Hno : toCheck U ps = []).
    { apply filter_none. intros p [Hp _]%firstNew_elem.
      by rewrite (Hall p Hp). }
    unfold stillMissing. rewrite Hno. simpl. rewrite app_nil_r. apply Hsub.
  - intros Hall.
    assert (Hno : foundLocally U ps = []).
    { apply filter_none. intros p [Hp _]%firstNew_elem. by apply Hall. }
    rewrite Hno. simpl. unfold stillMissing, toCheck.
    etrans; [apply filter_sublist | apply Hsub].
Qed.

(** C5: membership in the uploaded set is monotonic, no operation removes
    an object id from it; and in the upload phase that is not a dry run,
    right after the descriptor of a ready pointer has been put on the
    upload queue its object id is in the uploaded set, before any
    transfer completes, so that a later reference to the same id in the
    same run is treated as handled. *)
Theorem uploadedOids_monotonic_marked_at_handoff :
  (∀ oid, grows (λ c, Returns tt (SetUploaded oid c)))
  ∧ (∀ oid ok, grows (notify oid ok))
  ∧ (∀ miss ms, grows (checkMissing miss ms))
  ∧ (∀ ps, grows (prepareUpload ps))
  ∧ (∀ ps, grows (uploadPointers ps))
  ∧ grows Await
  ∧ (∀ ps c,
       DryRun c = false → cwg c = 0 →
       ∃ ready c0,
         prepareUpload ps c = Returns ready c0
         ∧ uploadPointers ps c = enqueueAll ready c0
         ∧ ∀ before p after c1,
             ready = before ++ p :: after →
             enqueueAll (before ++ [p]) c0 = Returns tt c1 →
             (∃ t, uploadTransfer (Oid p) (Name p) = inl t
                   ∧ last (trace c1)
                     = Some (EvTqAdd (tName t) (tPath t) (tOid t) (tSize t)))
             ∧ Oid p ∈ uploadedOids c1
             ∧ uploadPointers ps c = enqueueAll after c1
             ∧ Oid p ∈ uploadedOids (ctxOf (uploadPointers ps c))
             ∧ ∀ c2 qs,
                 uploadedOids c1 ⊆ uploadedOids c2 → cwg c2 = 0 →
                 ∃ evs,
                   trace (ctxOf (uploadPointers qs c2)) = trace c2 ++ evs
                   ∧ (∀ q, Oid q = Oid p → EvCqAdd q ∉ evs)
                   ∧ (∀ n, EvUploadTransfer (Oid p) n ∉ evs)
                   ∧ (∀ n, EvPrint "push %s => %s" [Oid p; n] ∉ evs)).
Proof.
  split; [apply grows_SetUploaded|]. split; [apply grows_notify|].
  split; [apply grows_checkMissing|]. split; [apply grows_prepareUpload|].
  split; [apply grows_uploadPointers|]. split; [apply grows_Await|].
  intros ps c Hd Hc.
  destruct (uploadPointers_live ps c Hd Hc) as (c0 & Hrun & Hup).
  eexists _, c0. split; [exact Hrun|]. split; [exact Hup|].
  intros before p after c1 Hready Hpre.
  assert (Hmark : Oid p ∈ uploadedOids c1).
  { apply (enqueueAll_uploaded _ _ _ Hpre). right.
    rewrite fmap_app. apply elem_of_app. right. by left. }
  assert (Hrest : uploadPointers ps c = enqueueAll after c1).
  { rewrite Hup, Hready, (cons_middle p before after), (assoc_L (++)).
    rewrite enqueueAll_app. unfold bind. by rewrite Hpre. }
  split.
  { rewrite enqueueAll_app in Hpre. unfold bind in Hpre.
    destruct (enqueueAll before c0) as [[] cb|]; [|discriminate].
    simpl in Hpre. unfold bind, emit in Hpre. simpl in Hpre.
    destruct (uploadTransfer (Oid p) (Name p)) as [t|[]];
      [|discriminate..].
    exists t. split; [done|]. simpl in Hpre. injection Hpre as <-.
    simpl. by rewrite last_snoc. }
  split; [exact Hmark|]. split; [exact Hrest|]. split.
  { rewrite Hrest. by apply grows_enqueueAll. }
  intros c2 qs Hsub Hc2.
  destruct (uploadPointers_ignores_uploaded qs c2 (Oid p) Hc2)
    as (evs & Ht & H1 & H2 & _ & H4); [by apply Hsub|].
  exists evs. done.
Qed.

(** C6: a second run over the same pointer list, on the uploaded set the
    first run left, enqueues no new work when every object id of the list
    is marked uploaded: the ready list is empty and the context, with its
    trace, is left as it was, so nothing is submitted to the check queue
    nor added to the upload queue.  A first run that returns leaves every
    id of the list marked. *)
Theorem uploadPointers_idempotent ps c :
  cwg c = 0 →
  ((∀ p, p ∈ ps → Oid p ∈ uploadedOids c) →
   prepareUpload ps c = Returns [] c
   ∧ uploadPointers ps c = Returns tt c)
  ∧ (∀ c1, uploadPointers ps c = Returns tt c1 →
           (∀ p, p ∈ ps → Oid p ∈ uploadedOids c1)
           ∧ cwg c1 = 0
           ∧ prepareUpload ps c1 = Returns [] c1
           ∧ uploadPointers ps c1 = Returns tt c1).
Proof.
  intros Hc.
  assert (Hidle : ∀ c0, cwg c0 = 0 →
            (∀ p, p ∈ ps → Oid p ∈ uploadedOids c0) →
            prepareUpload ps c0 = Returns [] c0
            ∧ uploadPointers ps c0 = Returns tt c0).
  { intros c0 Hc0 Hall. split; [by apply prepareUpload_nothing_new|].
    unfold uploadPointers. destruct (DryRun c0) eqn:Hd.
    - destruct (printPushes_run ps c0) as (c' & -> & Hd' & Hw & Ht & Hu).
      f_equal. apply context_eq; try done.
      + by rewrite Ht, (firstNew_all_seen _ _ Hall), app_nil_r.
      + intros o. rewrite Hu, elem_of_union, elem_of_list_to_set.
        split; [intros [?|(p & -> & Hp)%list_elem_of_fmap_1]|]; auto.
    - unfold bind. by rewrite prepareUpload_nothing_new. }
  split; [by apply Hidle|].
  intros c1 Hrun.
  assert (Hall : ∀ p, p ∈ ps → Oid p ∈ uploadedOids c1).
  { destruct (DryRun c) eqn:Hd.
    - unfold uploadPointers in Hrun. rewrite Hd in Hrun.
      destruct (printPushes_run ps c) as (c' & Hp & _ & _ & _ & Hu).
      rewrite Hp in Hrun. injection Hrun as <-.
      intros p Hp'. rewrite Hu, elem_of_union, elem_of_list_to_set.
      right. by apply list_elem_of_fmap_2.
    - destruct (uploadPointers_live ps c Hd Hc) as (c0 & Hprep & Hup).
      rewrite Hup in Hrun.
      destruct (prepareUpload_run ps c Hc) as (c0' & Hprep' & _ & _ & _ & Hu).
      rewrite Hprep in Hprep'. injection Hprep' as <-.
      pose proof (enqueueAll_uploaded _ _ _ Hrun) as Hu1.
      set (U := uploadedOids c) in *.
      intros p Hp. apply Hu1.
      destruct (decide (Oid p ∈ U)) as [Hin|Hnin].
      { left. apply Hu. by left. }
      assert (Oid p ∈ Oid <$> considered U ps) as Hq.
      { apply firstNew_oids. split; [done | by apply list_elem_of_fmap_2]. }
      apply list_elem_of_fmap_1 in Hq as (q & Hqp & Hq). rewrite Hqp.
      destruct (localPresent q) eqn:Hl.
      { right. apply list_elem_of_fmap_2, elem_of_app. left.
        unfold foundLocally. by apply elem_of_filter. }
      assert (Hqc : q ∈ toCheck U ps).
      { unfold toCheck. apply elem_of_filter. by rewrite Hl. }
      destruct (serverHas (Oid q)) eqn:Hs.
      + left. apply Hu. right. split; [by apply list_elem_of_fmap_2|done].
      + right. apply list_elem_of_fmap_2, elem_of_app. right.
        unfold stillMissing. apply elem_of_filter. unfold onServer.
        by rewrite Hs. }
  assert (Hc1 : cwg c1 = 0).
  { destruct (DryRun c) eqn:Hd.
    - unfold uploadPointers in Hrun. rewrite Hd in Hrun.
      destruct (printPushes_run ps c) as (c' & Hp & _ & Hw & _).
      rewrite Hp in Hrun. injection Hrun as <-. congruence.
    - destruct (uploadPointers_live ps c Hd Hc) as (c0 & Hprep & Hup).
      rewrite Hup in Hrun.
      destruct (prepareUpload_run ps c Hc) as (c0' & Hprep' & _ & Hw & _).
      rewrite Hprep in Hprep'. injection Hprep' as <-.
      destruct (enqueueAll_frame
                  (foundLocally (uploadedOids c) ps
                   ++ stillMissing (uploadedOids c) ps) c0) as (_ & _ & Hw').
      rewrite Hrun in Hw'. simpl in Hw'. congruence. }
  split; [exact Hall|]. split; [exact Hc1|]. by apply Hidle.
Qed.

(** ** The refs and the scans *)

Lemma reflookup_last (localrefs : list Ref) (name : string) :
  foldl (λ (m : gmap string Ref) ref, <[refName ref := ref]> m) ∅ localrefs
    !! name
  = lastNamed name localrefs.
Proof.
  narrow. unfold lastNamed.
  induction localrefs as [|ref l IH] using rev_ind; [done|].
  rewrite foldl_snoc, List.filter_app, lookup_insert. simpl.
  case_decide as Hn.
  - rewrite bool_decide_true by done. by rewrite last_snoc.
  - rewrite bool_decide_false by done. by rewrite app_nil_r.
Qed.

(** X1: [refsByNames] gives, for each requested name, the last local ref
    of that name, and for a name no local ref has, a ref of type
    [RefTypeOther] whose sha is the name itself; unless all refs are
    pushed and no name is given, and then it gives the local refs.  An
    error of [git.LocalRefs] is passed on. *)
Theorem refsByNames_lookup refnames :
  refsByNames refnames
  = match LocalRefs with
    | inr err => inr err
    | inl localrefs =>
        if pushAll && bool_decide (refnames = []) then inl localrefs
        else inl ((λ name,
                     default {| refName := name; refType := RefTypeOther;
                                refSha := name |}
                       (lastNamed name localrefs)) <$> refnames)
    end.
Proof.
  unfold refsByNames. destruct LocalRefs as [localrefs|err]; [|done].
  replace (length refnames =? 0)%nat with (bool_decide (refnames = []))
    by (by destruct refnames).
  destruct (pushAll && _); [done|]. f_equal.
  apply list_eq. intros i. rewrite !list_lookup_fmap.
  destruct (refnames !! i) as [name|]; [simpl|done].
  by rewrite reflookup_last.
Qed.

(** X2: when [refsByNames] resolves names, the refs it returns carry the
    requested names, in the order requested, one ref per name, and each
    of them is a local ref or is made up for a name that no local ref
    has. *)
Theorem refsByNames_names localrefs refnames :
  LocalRefs = inl localrefs →
  pushAll && bool_decide (refnames = []) = false →
  ∃ refs,
    refsByNames refnames = inl refs
    ∧ refName <$> refs = refnames
    ∧ Forall (λ ref,
                ref ∈ localrefs
                ∨ (ref = {| refName := refName ref; refType := RefTypeOther;
                            refSha := refName ref |}
                   ∧ ∀ l, l ∈ localrefs → refName l ≠ refName ref)) refs.
Proof.
  intros Hl Hall. unfold refsByNames. rewrite Hl.
  replace (length refnames =? 0)%nat with (bool_decide (refnames = []))
    by (by destruct refnames).
  rewrite Hall.
  exists ((λ name,
             default {| refName := name; refType := RefTypeOther;
                        refSha := name |} (lastNamed name localrefs))
          <$> refnames).
  split.
  { f_equal. apply list_eq. intros i. rewrite !list_lookup_fmap.
    destruct (refnames !! i) as [name|]; [simpl|done].
    by rewrite reflookup_last. }
  assert (Hlast : ∀ name,
            match lastNamed name localrefs with
            | Some ref => ref ∈ localrefs ∧ refName ref = name
            | None => ∀ l, l ∈ localrefs → refName l ≠ name
            end).
  { intros name. unfold lastNamed.
    destruct (last _) as [ref|] eqn:Hlast.
    - apply last_Some_elem_of, elem_of_filter in Hlast as [? Hn].
      by apply bool_decide_eq_true in Hn.
    - apply last_None in Hlast. intros l Hin Hn.
      assert (l ∈ List.filter (λ ref, bool_decide (refName ref = name))
                    localrefs) as Hf.
      { apply elem_of_filter. split; [done | by apply bool_decide_eq_true]. }
      rewrite Hlast in Hf. by apply elem_of_nil in Hf. }
  split.
  - rewrite <- list_fmap_compose. rewrite <- (list_fmap_id refnames) at 2.
    apply list_fmap_ext. intros i name _. simpl.
    specialize (Hlast name). by destruct (lastNamed name localrefs) as [?|];
      [destruct Hlast|].
  - apply Forall_fmap, Forall_forall. intros name _. simpl.
    specialize (Hlast name). destruct (lastNamed name localrefs) as [ref|].
    + left. by destruct Hlast.
    + right. done.
Qed.

Lemma append_assoc (s1 s2 s3 : string) :
  (s1 +:+ s2) +:+ s3 = s1 +:+ (s2 +:+ s3).
Proof.
  narrow. induction s1 as [|a s1 IH]; [reflexivity|].
  change (String a ((s1 +:+ s2) +:+ s3) = String a (s1 +:+ s2 +:+ s3)).
  by rewrite IH.
Qed.

Lemma concat_snoc sep (x : string) (l : list string) (y : string) :
  String.concat sep ((x :: l) ++ [y])
  = String.concat sep (x :: l) +:+ sep +:+ y.
Proof.
  narrow. revert x. induction l as [|z l IH]; intros x; [done|].
  change (String.concat sep ((x :: z :: l) ++ [y]))
    with (x +:+ sep +:+ String.concat sep ((z :: l) ++ [y])).
  change (String.concat sep (x :: z :: l))
    with (x +:+ sep +:+ String.concat sep (z :: l)).
  by rewrite IH, !append_assoc.
Qed.

Lemma joined_snoc errs err :
  joined (errs ++ [err])
  = Some match joined errs with
         | None => err
         | Some m =>
             PlainError (ErrorString m +:+ newline +:+ ErrorString err)
         end.
Proof.
  narrow. destruct errs as [|a [|b errs]]; [done..|].
  change (joined ((a :: b :: errs) ++ [err]))
    with (Some (PlainError
                  (String.concat newline
                     (ErrorString <$> (a :: b :: errs) ++ [err])))).
  change (joined (a :: b :: errs))
    with (Some (PlainError
                  (String.concat newline (ErrorString <$> a :: b :: errs)))).
  cbv beta iota. unfold ErrorString at 2. do 2 f_equal.
  rewrite fmap_app.
  exact (concat_snoc newline (ErrorString a)
           (fmap (M:=list) ErrorString (b :: errs)) (ErrorString err)).
Qed.

Lemma scanCallback_fold items : ∀ ps,
  foldl scanCallback (ps, None) items
  = (ps ++ pointersOf items, joined (errorsOf items)).
Proof.
  narrow. induction items as [|item items IH] using rev_ind; intros ps.
  - by rewrite app_nil_r.
  - rewrite foldl_snoc, IH. unfold pointersOf, errorsOf.
    rewrite !omap_app. destruct item as [p|err]; simpl.
    + by rewrite app_nil_r, (assoc_L (++)).
    + rewrite app_nil_r. fold (errorsOf items). rewrite joined_snoc.
      by destruct (joined (errorsOf items)).
Qed.

(** X3: [scanLeftOrAll] returns the pointers its callback was given, in
    the order of the calls, those of the scan with deleted files first
    when all is pushed.  The error a scan returns comes first and ends
    the function, the callback errors met so far being dropped; failing
    that, the callback errors are returned, a single one as it is and
    several as one error with a message line each. *)
Theorem scanLeftOrAll_result ref :
  scanLeftOrAll ref
  = let first := if pushAll then ScanRefWithDeleted ref else ([], None) in
    match first.2 with
    | Some err => (pointersOf first.1, Some err)
    | None =>
        let items := first.1 ++ (ScanLeftToRemote ref).1 in
        (pointersOf items,
         match (ScanLeftToRemote ref).2 with
         | Some err => Some err
         | None => joined (errorsOf items)
         end)
    end.
Proof.
  unfold scanLeftOrAll.
  destruct (if pushAll then ScanRefWithDeleted ref else ([], None))
    as [items1 [e|]]; cbv zeta.
  - by rewrite scanCallback_fold.
  - destruct (ScanLeftToRemote ref) as [items2 err2].
    rewrite <- foldl_app, scanCallback_fold. by destruct err2.
Qed.

(** X4: [scanLeftOrAll] returns without error exactly when no scan it
    runs returns an error and no callback is given one; it then returns
    every pointer scanned. *)
Theorem scanLeftOrAll_ok ref :
  let first := if pushAll then ScanRefWithDeleted ref else ([], None) in
  let items := first.1 ++ (ScanLeftToRemote ref).1 in
  ((scanLeftOrAll ref).2 = None
   ↔ first.2 = None ∧ (ScanLeftToRemote ref).2 = None ∧ errorsOf items = [])
  ∧ ((scanLeftOrAll ref).2 = None →
     (scanLeftOrAll ref).1 = pointersOf items
     ∧ length (pointersOf items) = length items).
Proof.
  narrow. intros first items. unfold scanLeftOrAll.
  subst items first.
  destruct (if pushAll then ScanRefWithDeleted ref else ([], None))
    as [items1 err1].
  destruct (ScanLeftToRemote ref) as [items2 err2]. cbv zeta.
  rewrite <- foldl_app, !scanCallback_fold. cbn [fst snd app].
  set (items := items1 ++ items2).
  assert (Hj : ∀ errs, joined errs = None ↔ errs = []).
  { narrow. intros [|a [|b errs]]; done. }
  assert (Hlen : errorsOf items = [] →
                 length (pointersOf items) = length items).
  { clear. induction items as [|[p|e] items IH]; [done| |done].
    intros H. cbn. f_equal. by apply IH. }
  destruct err1 as [e1|]; cbn [fst snd].
  { split; [split; [done | by intros [? _]] | done]. }
  destruct err2 as [e2|]; cbn [fst snd].
  { split; [split; [done | by intros (_ & ? & _)] | done]. }
  rewrite Hj. split; [naive_solver|]. intros H. split; [done | by apply Hlen].
Qed.

(** ** How a push ends *)
















(** ** A dry run of the whole push *)












(** ** No object id is handled twice *)

Lemma handled_app l k : handled (l ++ k) = handled l ++ handled k.
Proof. narrow. apply omap_app. Qed.

Lemma handled_notices l : handled (pushNotice <$> l) = Oid <$> l.
Proof.
  narrow. induction l as [|p l IH]; [done|].
  rewrite !fmap_cons, <- IH. reflexivity.
Qed.

Lemma handled_prepare U ps :
  handled (flat_map estimate (considered U ps)
           ++ (EvCqAdd <$> toCheck U ps)
           ++ (EvTqSkip ∘ Size <$> confirmedRemote U ps)) = [].
Proof.
  rewrite !handled_app.
  assert (H1 : ∀ D, handled (flat_map estimate D) = []).
  { clear. induction D as [|p D IH]; [done|]. exact IH. }
  assert (H2 : ∀ T, handled (EvCqAdd <$> T) = []).
  { clear. induction T as [|p T IH]; [done|]. exact IH. }
  assert (H3 : ∀ R : list WrappedPointer, handled (EvTqSkip ∘ Size <$> R) = []).
  { clear. induction R as [|p R IH]; [done|]. exact IH. }
  by rewrite H1, H2, H3.
Qed.

Lemma handled_enqueueTrace l :
  handled (enqueueTrace l) `prefix_of` (Oid <$> l).
Proof.
  induction l as [|p l IH]; [done|]. simpl.
  destruct (uploadTransfer (Oid p) (Name p)).
  - change (Oid p :: handled (enqueueTrace l) `prefix_of` Oid p :: (Oid <$> l)).
    by apply prefix_cons.
  - by exists (Oid <$> l).
Qed.

Lemma considered_inj U ps p q :
  p ∈ considered U ps → q ∈ considered U ps → Oid p = Oid q → p = q.
Proof.
  narrow. intros Hp Hq Ho.
  pose proof (considered_NoDup U ps) as Hnd.
  apply list_elem_of_lookup in Hp as [i Hi].
  apply list_elem_of_lookup in Hq as [j Hj].
  assert (i = j) as ->; [|congruence].
  eapply NoDup_lookup; [exact Hnd|..];
    rewrite list_lookup_fmap; [by rewrite Hi | by rewrite Hj, Ho].
Qed.

Lemma ready_considered U ps p :
  p ∈ foundLocally U ps ++ stillMissing U ps →
  p ∈ considered U ps
  ∧ (localPresent p = true ∨ (localPresent p = false ∧ onServer p = false)).
Proof.
  intros [Hp|Hp]%elem_of_app.
  - unfold foundLocally in Hp. apply elem_of_filter in Hp as [? ?]. auto.
  - unfold stillMissing, toCheck in Hp.
    apply elem_of_filter in Hp as [Hp Hs]. apply elem_of_filter in Hp as [? Hl].
    apply negb_true_iff in Hs, Hl. auto.
Qed.

Lemma ready_NoDup U ps :
  NoDup (Oid <$> (foundLocally U ps ++ stillMissing U ps)).
Proof.
  rewrite fmap_app. apply NoDup_app. split; [|split].
  - eapply sublist_NoDup; [apply (considered_NoDup U ps)|].
    apply fmap_sublist, filter_sublist.
  - intros o (p & -> & Hp)%list_elem_of_fmap_1 (q & Hq & Hq')%list_elem_of_fmap_1.
    unfold foundLocally in Hp. apply elem_of_filter in Hp as [Hp Hl].
    unfold stillMissing, toCheck in Hq'.
    apply elem_of_filter in Hq' as [Hq' _].
    apply elem_of_filter in Hq' as [Hq' Hl'].
    rewrite (considered_inj U ps p q Hp Hq' Hq) in Hl.
    rewrite Hl in Hl'. done.
  - eapply sublist_NoDup; [apply (toCheck_NoDup U ps)|].
    apply fmap_sublist, filter_sublist.
Qed.

Lemma once_ret {A} (a : A) : once (ret a).
Proof.
  narrow. intros c Hc. exists []. rewrite app_nil_r.
  split; [done|]. split; [constructor|]. split; [by intros o ?%elem_of_nil|].
  split; [done|]. intros a' c' [= _ <-]. split; [done|].
  by intros o ?%elem_of_nil.
Qed.

Lemma once_halt {A} h : once (@halt A h).
Proof.
  narrow. intros c Hc. exists []. rewrite app_nil_r.
  split; [done|]. split; [constructor|]. split; [by intros o ?%elem_of_nil|].
  split; [done|]. by intros a' c'.
Qed.

Lemma once_emit e : handled [e] = [] → once (emit e).
Proof.
  narrow. intros He c Hc. exists [e]. rewrite He.
  split; [done|]. split; [constructor|]. split; [by intros o ?%elem_of_nil|].
  split; [done|]. intros a' c' [= _ <-]. split; [done|].
  by intros o ?%elem_of_nil.
Qed.

Lemma once_bind {A B} (m : Run A) (k : A → Run B) :
  once m → (∀ a, once (k a)) → once (bind m k).
Proof.
  narrow. intros Hm Hk c Hc. unfold bind.
  destruct (Hm c Hc) as (evs1 & Ht1 & Hn1 & Hf1 & Hg1 & Hr1).
  destruct (m c) as [a c1|h c1]; simpl in *.
  - destruct (Hr1 a c1 eq_refl) as [Hc1 Hu1].
    destruct (Hk a c1 Hc1) as (evs2 & Ht2 & Hn2 & Hf2 & Hg2 & Hr2).
    exists (evs1 ++ evs2). rewrite handled_app.
    split; [by rewrite Ht2, Ht1, (assoc_L (++))|]. split.
    { apply NoDup_app. split; [done|]. split; [|done].
      intros o Ho1 Ho2. by apply (Hf2 o Ho2), Hu1. }
    split.
    { intros o [Ho|Ho]%elem_of_app; [by apply Hf1|].
      intros Hin. by apply (Hf2 o Ho), Hg1. }
    split; [by etrans|].
    intros b c' Hret. destruct (Hr2 b c' Hret) as [Hc' Hu2].
    split; [done|]. intros o [Ho|Ho]%elem_of_app; [|by apply Hu2].
    rewrite Hret in Hg2. by apply Hg2, Hu1.
  - exists evs1. split; [done|]. split; [done|]. split; [done|].
    split; [done|]. by intros b c'.
Qed.

Lemma once_uploadPointers ps : once (uploadPointers ps).
Proof.
  intros c Hc. eexists. split; [apply (uploadPointers_trace ps c Hc)|].
  set (U := uploadedOids c).
  destruct (DryRun c) eqn:Hd.
  - rewrite handled_notices.
    split; [apply firstNew_NoDup|]. split.
    { intros o Ho. by apply firstNew_oids in Ho as [? _]. }
    split; [apply grows_uploadPointers|].
    intros a c' Hret. unfold uploadPointers in Hret. rewrite Hd in Hret.
    destruct (printPushes_run ps c) as (c1 & Hp & _ & Hw & _ & Hu).
    rewrite Hp in Hret. injection Hret as _ <-. split; [congruence|].
    intros o [_ Ho]%firstNew_oids. rewrite Hu.
    apply elem_of_union. right. by apply elem_of_list_to_set.
  - rewrite !(assoc_L (++)), handled_app, <- !(assoc_L (++)).
    rewrite handled_prepare. cbn [app].
    pose proof (handled_enqueueTrace
                  (foundLocally U ps ++ stillMissing U ps)) as [k Hk].
    pose proof (ready_NoDup U ps) as Hnd. rewrite Hk in Hnd.
    apply NoDup_app in Hnd as (Hnd & _ & _).
    assert (Hin : ∀ o, o ∈ handled (enqueueTrace (foundLocally U ps
                                                   ++ stillMissing U ps)) →
                       o ∈ Oid <$> (foundLocally U ps ++ stillMissing U ps)).
    { intros o Ho. rewrite Hk. apply elem_of_app. by left. }
    split; [done|]. split.
    { intros o (p & -> & Hp)%Hin%list_elem_of_fmap_1.
      apply ready_considered in Hp as [Hp _].
      by apply firstNew_elem in Hp as [_ ?]. }
    split; [apply grows_uploadPointers|].
    intros a c' Hret.
    destruct (uploadPointers_live ps c Hd Hc) as (c1 & Hprep & Hup).
    fold U in Hprep, Hup. rewrite Hup in Hret. destruct a.
    destruct (prepareUpload_run ps c Hc) as (c1' & Hprep' & _ & Hw & _).
    fold U in Hprep'. rewrite Hprep in Hprep'. injection Hprep' as <-.
    destruct (enqueueAll_frame (foundLocally U ps ++ stillMissing U ps) c1)
      as (_ & _ & Hw').
    rewrite Hret in Hw'. simpl in Hw'. split; [congruence|].
    intros o Ho%Hin. apply (enqueueAll_uploaded _ _ _ Hret). by right.
Qed.

Lemma once_fullErrors errs : once (fullErrors errs).
Proof.
  induction errs as [|err errs IH]; simpl; [apply once_ret|].
  apply once_bind; [by apply once_emit | done].
Qed.

Lemma once_Await : once Await.
Proof.
  unfold Await. apply once_bind; [by apply once_emit|]. intros _ c.
  generalize (tqErrors (trace c)). intros errs. revert c.
  apply once_bind; [apply once_fullErrors|]. intros _.
  destruct (0 <? length errs)%nat; [apply once_halt | apply once_ret].
Qed.

Lemma once_uploadRefs refs : once (uploadRefs refs).
Proof.
  induction refs as [|ref refs IH]; simpl; [apply once_ret|].
  destruct (scanLeftOrAll (refName ref)) as [pointers [err|]].
  - apply once_bind; [by apply once_emit|]. intros _. apply once_halt.
  - apply once_bind; [apply once_uploadPointers | done].
Qed.

Lemma once_uploadsWithObjectIDs oids : once (uploadsWithObjectIDs oids).
Proof.
  unfold uploadsWithObjectIDs.
  apply once_bind; [apply once_uploadPointers|]. intros _. apply once_Await.
Qed.

Lemma once_uploadsBetweenRefAndRemote remote refnames :
  once (uploadsBetweenRefAndRemote remote refnames).
Proof.
  unfold uploadsBetweenRefAndRemote.
  destruct (RemoteForPush remote); [apply once_halt|].
  destruct (refsByNames refnames) as [refs|err].
  - apply once_bind; [apply once_uploadRefs|]. intros _. apply once_Await.
  - apply once_bind; [by apply once_emit|]. intros _. apply once_halt.
Qed.

Lemma resolutions_handled evs : (resolutions evs) `sublist_of` (handled evs).
Proof.
  narrow. induction evs as [|e evs IH]; [done|].
  destruct e as [| | | |o n| | | | |format [|a args]]; cbn; try done.
  - by apply sublist_skip.
  - destruct (String.eqb format _); [by apply sublist_cons | done].
Qed.

(** X7: in one run of [pushCommand], over all the refs or object ids of
    the command line and however the run ends, no object id is given to
    [uploadTransfer] twice and, in a dry run, none is announced twice. *)
Theorem pushCommand_handles_once args remote o :
  pushCommand args = PushRuns remote o →
  NoDup (handled (trace (ctxOf o)))
  ∧ NoDup (resolutions (trace (ctxOf o)))
  ∧ NoDup (pushNotices (trace (ctxOf o))).
Proof.
  intros Hrun.
  assert (Hh : NoDup (handled (trace (ctxOf o)))).
  { unfold pushCommand in Hrun. destruct args as [|r rest]; [done|].
    destruct requireGitVersion; [done|].
    destruct (ValidateRemote r); [done|]. injection Hrun as <- <-.
    assert (Hall : ∀ m : Run unit, once m →
              NoDup (handled (trace (ctxOf (m (newUploadContext pushDryRun)))))).
    { intros m Hm.
      destruct (Hm (newUploadContext pushDryRun) eq_refl)
        as (evs & -> & ? & _). done. }
    destruct pushObjectIDs.
    - destruct (_ <? 2)%nat.
      + apply (Hall (emit _)). by apply once_emit.
      + apply Hall, once_uploadsWithObjectIDs.
    - apply Hall, once_uploadsBetweenRefAndRemote. }
  split; [done|]. split.
  - eapply sublist_NoDup; [exact Hh | apply resolutions_handled].
  - eapply sublist_NoDup; [exact Hh|]. clear.
    induction (trace (ctxOf o)) as [|e evs IH]; [done|].
    destruct e as [| | | |o' n| | | | |format [|a args]]; cbn; try done.
    + by apply sublist_cons.
    + destruct (String.eqb format _); [by apply sublist_skip | done].
Qed.


(** ** Errors in the upload phase *)

Lemma enqueueAll_all_resolve l : ∀ c,
  (∀ q, q ∈ l → ∃ t, uploadTransfer (Oid q) (Name q) = inl t) →
  ∃ c', enqueueAll l c = Returns tt c'
        ∧ length (tqAdds (enqueueTrace l)) = length l
        ∧ resolutions (enqueueTrace l) = Oid <$> l.
Proof.
  induction l as [|p l IH]; intros c Hall; [by exists c|].
  destruct (Hall p) as [t Ht]; [by left|].
  simpl. unfold bind, emit. rewrite Ht. simpl.
  match goal with |- context [enqueueAll l ?c1] =>
    destruct (IH c1) as (c' & -> & Hlen & Hres) end.
  { intros q Hq. apply Hall. by right. }
  exists c'. split; [done|]. cbn. by rewrite Hlen, Hres.
Qed.

(** X8: when the resolution of a ready pointer fails, the upload loop
    ends the process at that pointer: through [Exit], with the object id
    asked for, the name tried and the object id found on disk, when the
    pointer on disk does not match, and through [ExitWithError] on any
    other error.  The pointers before it have been put on the queue and
    marked uploaded; the failing pointer is not marked, and nothing is
    done for the pointers after it. *)
Theorem enqueueAll_stops_at_failure before p after err c :
  (∀ q, q ∈ before → ∃ t, uploadTransfer (Oid q) (Name q) = inl t) →
  uploadTransfer (Oid p) (Name p) = inr err →
  ∃ c',
    enqueueAll (before ++ p :: after) c
    = Halts match err with
            | CleanPointerError actual _ =>
                ExitCall
                  "%s does not exist in .git/lfs/objects. Tried %s, which matches %s."
                  [Oid p; Name p; actual]
            | PlainError _ => ExitWithError err
            end c'
    ∧ trace c'
      = trace c ++ enqueueTrace before ++ [EvUploadTransfer (Oid p) (Name p)]
    ∧ length (tqAdds (enqueueTrace before)) = length before
    ∧ resolutions (enqueueTrace before) = Oid <$> before
    ∧ (∀ o, o ∈ uploadedOids c'
            ↔ o ∈ uploadedOids c ∨ o ∈ Oid <$> before).
Proof.
  intros Hall Hp.
  destruct (enqueueAll_all_resolve before c Hall) as (c1 & Hrun & Hlen & Hres).
  rewrite enqueueAll_app. unfold bind. rewrite Hrun.
  destruct (enqueueAll_frame before c) as (Ht & _). rewrite Hrun in Ht.
  simpl in Ht. pose proof (enqueueAll_uploaded _ _ _ Hrun) as Hu.
  simpl. unfold bind, emit. rewrite Hp. simpl.
  eexists. split; [by destruct err|]. simpl.
  split; [by rewrite Ht, (assoc_L (++))|]. done.
Qed.

(** X9: the loop over the refs ends at the first ref whose scan fails:
    the pointers of the refs before it have gone through
    [uploadPointers], the failure is printed and the process ends through
    [ExitWithError]; the pointers this scan had found, the refs after it
    and [Await] are left out. *)
Theorem uploadRefs_stops_at_scan_error before ref after pointers err c :
  (∀ r, r ∈ before → (scanLeftOrAll (refName r)).2 = None) →
  scanLeftOrAll (refName ref) = (pointers, Some err) →
  uploadRefs (before ++ ref :: after) c
  = match uploadRefs before c with
    | Returns _ c1 =>
        Halts (ExitWithError err)
          (logEv (EvPrint "Error scanning for Git LFS files in the %q ref"
                    [refName ref]) c1)
    | Halts h c1 => Halts h c1
    end
  ∧ uploadRefs before c
    = foldr (λ r m, uploadPointers (scanLeftOrAll (refName r)).1 ;;; m)
        (ret tt) before c.
Proof.
  intros Hok Hbad. split.
  - revert c. induction before as [|r before IH]; intros c.
    + simpl. by rewrite Hbad.
    + simpl. specialize (Hok r (list_elem_of_here _ _)) as Hr.
      destruct (scanLeftOrAll (refName r)) as [ps e]. simpl in Hr. subst e.
      unfold bind. destruct (uploadPointers ps c) as [[] c1|h c1]; [|done].
      apply IH. intros r' Hr'. apply Hok. by right.
  - clear Hbad. revert c. induction before as [|r before IH]; intros c; [done|].
    simpl. specialize (Hok r (list_elem_of_here _ _)) as Hr.
    destruct (scanLeftOrAll (refName r)) as [ps e]. simpl in Hr. subst e.
    unfold bind. simpl. destruct (uploadPointers ps c) as [[] c1|h c1]; [|done].
    apply IH. intros r' Hr'. apply Hok. by right.
Qed.

(** ** More about the Prepare phase *)

Lemma storeTests_app l k : storeTests (l ++ k) = storeTests l ++ storeTests k.
Proof. narrow. apply omap_app. Qed.

Lemma resolutions_app l k :
  resolutions (l ++ k) = resolutions l ++ resolutions k.
Proof. narrow. apply omap_app. Qed.

Lemma storeTests_prepare U ps :
  storeTests (flat_map estimate (considered U ps)
              ++ (EvCqAdd <$> toCheck U ps)
              ++ (EvTqSkip ∘ Size <$> confirmedRemote U ps))
  = (λ p, (Oid p, Size p)) <$> considered U ps.
Proof.
  rewrite !storeTests_app.
  assert (H1 : ∀ D, storeTests (flat_map estimate D)
                    = (λ p, (Oid p, Size p)) <$> D).
  { clear. induction D as [|p D IH]; [done|].
    rewrite fmap_cons, <- IH. reflexivity. }
  assert (H2 : ∀ T, storeTests (EvCqAdd <$> T) = []).
  { clear. induction T as [|p T IH]; [done|]. exact IH. }
  assert (H3 : ∀ R : list WrappedPointer,
            storeTests (EvTqSkip ∘ Size <$> R) = []).
  { clear. induction R as [|p R IH]; [done|]. exact IH. }
  by rewrite H1, H2, H3, !app_nil_r.
Qed.

Lemma enqueueTrace_calls l :
  meterAdds (enqueueTrace l) = []
  ∧ cqAdds (enqueueTrace l) = []
  ∧ tqSkips (enqueueTrace l) = []
  ∧ storeTests (enqueueTrace l) = [].
Proof.
  induction l as [|p l IH]; [done|]. simpl.
  by destruct (uploadTransfer (Oid p) (Name p)).
Qed.

(** X10: the ready list of [prepareUpload] holds pointers of the input
    with pairwise distinct object ids, none of which is in the uploaded
    set before or after the call; every object id of the input is then
    either in the uploaded set or in the ready list; and the number of
    ready pointers is the number of [meter.Add] calls less the number of
    [tq.Skip] calls. *)
Theorem prepareUpload_ready_distinct ps c :
  cwg c = 0 →
  ∃ ready c' evs,
    prepareUpload ps c = Returns ready c'
    ∧ trace c' = trace c ++ evs
    ∧ NoDup (Oid <$> ready)
    ∧ (∀ p, p ∈ ready →
            p ∈ ps ∧ (Oid p ∉ uploadedOids c) ∧ Oid p ∉ uploadedOids c')
    ∧ (∀ o, o ∈ Oid <$> ps → o ∈ uploadedOids c' ∨ o ∈ Oid <$> ready)
    ∧ (length ready + length (tqSkips evs) = length (meterAdds evs))%nat.
Proof.
  intros Hc.
  destruct (prepareUpload_run ps c Hc) as (c' & Hrun & _ & _ & Ht & Hu).
  set (U := uploadedOids c) in *.
  destruct (prepare_calls U ps) as (Hm & _ & Hs & _).
  eexists _, c', _. split; [exact Hrun|]. split; [exact Ht|].
  split; [apply ready_NoDup|]. split.
  { intros p Hp. destruct (ready_considered U ps p Hp) as [Hcons Hcase].
    destruct (firstNew_elem _ _ _ Hcons) as [Hin Hn].
    split; [done|]. split; [done|]. rewrite Hu.
    intros [?|[(q & Hqp & Hq)%list_elem_of_fmap_1 Hsrv]]; [done|].
    assert (q = p) as ->.
    { symmetry. apply (considered_inj U ps); [done| |done].
      unfold toCheck in Hq. by apply elem_of_filter in Hq as [? _]. }
    apply toCheck_elem in Hq as (_ & _ & Hl).
    destruct Hcase as [?|[_ Hs']]; [congruence|].
    unfold onServer in Hs'. congruence. }
  split.
  { intros o Ho. destruct (decide (o ∈ U)) as [?|Hn].
    { left. apply Hu. by left. }
    assert (o ∈ Oid <$> considered U ps) as (p & -> & Hp)%list_elem_of_fmap_1
      by (by apply firstNew_oids).
    destruct (localPresent p) eqn:Hl.
    { right. apply list_elem_of_fmap_2, elem_of_app. left.
      unfold foundLocally. by apply elem_of_filter. }
    assert (p ∈ toCheck U ps) as Hq.
    { unfold toCheck. apply elem_of_filter. by rewrite Hl. }
    destruct (serverHas (Oid p)) eqn:Hsrv.
    - left. apply Hu. right. split; [by apply list_elem_of_fmap_2 | done].
    - right. apply list_elem_of_fmap_2, elem_of_app. right.
      unfold stillMissing. apply elem_of_filter. unfold onServer.
      by rewrite Hsrv. }
  rewrite Hm, Hs, !length_fmap, length_app.
  unfold foundLocally, stillMissing, confirmedRemote, toCheck.
  assert (Hsplit : ∀ {A} (f : A → bool) (l : list A),
            (length (List.filter f l)
             + length (List.filter (λ x, negb (f x)) l) = length l)%nat).
  { clear. intros A f l. induction l as [|x l IH]; [done|].
    simpl. destruct (f x); simpl; lia. }
  pose proof (Hsplit _ localPresent (considered U ps)).
  pose proof (Hsplit _ onServer
                (List.filter (λ p, negb (localPresent p)) (considered U ps))).
  lia.
Qed.

Lemma wrap64_add a b : wrap64 (wrap64 a + b) = wrap64 (a + b).
Proof.
  narrow. unfold wrap64. f_equal.
  replace ((a + 2 ^ 63) `mod` 2 ^ 64 - 2 ^ 63 + b + 2 ^ 63)
    with ((a + 2 ^ 63) `mod` 2 ^ 64 + b) by lia.
  rewrite Zplus_mod_idemp_l. f_equal. lia.
Qed.

Lemma wrap64_small z : - 2 ^ 63 ≤ z < 2 ^ 63 → wrap64 z = z.
Proof. narrow. intros Hz. unfold wrap64. rewrite Z.mod_small; lia. Qed.

(** X11: the tally [missingSize] that the first loop of [prepareUpload]
    hands to [checkMissing] is the sum of the sizes of the pointers to
    check, wrapped to 64 bits; it is that sum itself when the sizes are
    not negative and the sum is below 2^63. *)
Theorem classify_missingSize ps c :
  let U := uploadedOids c in
  let tally := (classify ps StringSet.NewStringSet [] [] 0 c).2.2 in
  (classify ps StringSet.NewStringSet [] [] 0 c).2.1.2 = toCheck U ps
  ∧ tally = wrap64 (sumZ (Size <$> toCheck U ps))
  ∧ (Forall (λ p, 0 ≤ Size p) ps →
     sumZ (Size <$> toCheck U ps) < 2 ^ 63 →
     tally = sumZ (Size <$> toCheck U ps)).
Proof.
  intros U tally. subst tally. rewrite classify_run. cbn [fst snd].
  unfold StringSet.NewStringSet. rewrite (left_id_L ∅ (∪)). fold U.
  fold (considered U ps). fold (toCheck U ps). cbn [app].
  assert (Hfold : ∀ l ms,
            wrap64 (foldl (λ acc p, wrap64 (acc + Size p)) ms l)
            = wrap64 (ms + sumZ (Size <$> l))).
  { clear. induction l as [|p l IH]; intros ms.
    - simpl. f_equal. lia.
    - cbn [foldl]. rewrite IH, wrap64_add, fmap_cons. f_equal.
      unfold sumZ. cbn [foldr]. lia. }
  assert (Hw : ∀ l ms, wrap64 ms = ms →
            wrap64 (foldl (λ acc p, wrap64 (acc + Size p)) ms l)
            = foldl (λ acc p, wrap64 (acc + Size p)) ms l).
  { clear. induction l as [|p l IH]; intros ms Hms; [done|].
    cbn [foldl]. apply IH. unfold wrap64 at 1.
    unfold wrap64.
    replace ((ms + Size p + 2 ^ 63) `mod` 2 ^ 64 - 2 ^ 63 + 2 ^ 63)
      with ((ms + Size p + 2 ^ 63) `mod` 2 ^ 64) by lia.
    by rewrite Z.mod_mod. }
  assert (Htally : foldl (λ acc p, wrap64 (acc + Size p)) 0 (toCheck U ps)
                   = wrap64 (sumZ (Size <$> toCheck U ps))).
  { rewrite <- Hw by done. by rewrite Hfold. }
  split; [done|]. split; [exact Htally|].
  intros Hpos Hlt. rewrite Htally. apply wrap64_small.
  split; [|done].
  assert (0 ≤ sumZ (Size <$> toCheck U ps)); [|lia].
  assert (Hsub : ∀ p, p ∈ toCheck U ps → 0 ≤ Size p).
  { intros p Hp. unfold toCheck in Hp. apply elem_of_filter in Hp as [Hp _].
    apply firstNew_elem in Hp as [Hp _].
    by apply (proj1 (Forall_forall _ _) Hpos). }
  clear -Hsub. induction (toCheck U ps) as [|p l IH]; [done|].
  rewrite fmap_cons. unfold sumZ in *. cbn [foldr].
  specialize (Hsub p (list_elem_of_here _ _)) as Hp.
  assert (0 ≤ foldr Z.add 0 (Size <$> l)); [|lia].
  apply IH. intros q Hq. apply Hsub. by right.
Qed.


(** ** Pushing object ids *)

Lemma Await_trace c :
  ∃ errs, trace (ctxOf (Await c))
          = trace c ++ EvTqWait :: (EvFullError <$> errs).
Proof.
  exists (tqErrors (trace c ++ [EvTqWait])).
  unfold Await, bind, emit. simpl. rewrite fullErrors_run.
  destruct (0 <? _)%nat; simpl; by rewrite <- (assoc_L (++)).
Qed.

Lemma uploadPointers_calls ps c :
  cwg c = 0 → DryRun c = false →
  let U := uploadedOids c in
  ∃ evs,
    trace (ctxOf (uploadPointers ps c)) = trace c ++ evs
    ∧ meterAdds evs = Size <$> considered U ps
    ∧ storeTests evs = (λ p, (Oid p, Size p)) <$> considered U ps
    ∧ tqSkips evs = Size <$> confirmedRemote U ps
    ∧ cqAdds evs = toCheck U ps.
Proof.
  intros Hc Hd U. pose proof (uploadPointers_trace ps c Hc) as Ht.
  rewrite Hd in Ht. cbv zeta in Ht. fold U in Ht.
  exists ((flat_map estimate (considered U ps)
           ++ (EvCqAdd <$> toCheck U ps)
           ++ (EvTqSkip ∘ Size <$> confirmedRemote U ps))
          ++ enqueueTrace (foundLocally U ps ++ stillMissing U ps)).
  split; [by rewrite Ht, <- !(assoc_L (++))|].
  rewrite meterAdds_app, storeTests_app, tqSkips_app, cqAdds_app.
  destruct (prepare_calls U ps) as (-> & -> & -> & _).
  rewrite storeTests_prepare.
  destruct (enqueueTrace_calls (foundLocally U ps ++ stillMissing U ps))
    as (-> & -> & -> & ->).
  by rewrite !app_nil_r.
Qed.

Lemma Await_calls errs :
  meterAdds (EvTqWait :: (EvFullError <$> errs)) = []
  ∧ storeTests (EvTqWait :: (EvFullError <$> errs)) = []
  ∧ tqSkips (EvTqWait :: (EvFullError <$> errs)) = []
  ∧ cqAdds (EvTqWait :: (EvFullError <$> errs)) = [].
Proof.
  narrow. induction errs as [|err errs IH]; [done|]. exact IH.
Qed.

(** X13: with [--object-id] the pointers are made without size: in a run
    that is not a dry run, every distinct object id not yet uploaded is
    looked up in the local store with size 0 and counted in the progress
    meter with 0 bytes, and every skip is of 0 bytes. *)
Theorem uploadsWithObjectIDs_sizes oids c :
  cwg c = 0 → DryRun c = false →
  ∃ evs fresh,
    trace (ctxOf (uploadsWithObjectIDs oids c)) = trace c ++ evs
    ∧ NoDup fresh
    ∧ (∀ o, o ∈ fresh ↔ o ∈ oids ∧ o ∉ uploadedOids c)
    ∧ storeTests evs = (λ o, (o, 0)) <$> fresh
    ∧ meterAdds evs = (λ _, 0) <$> fresh
    ∧ Forall (λ n, n = 0) (tqSkips evs).
Proof.
  clear ValidateRemote ScanRefWithDeleted ScanLeftToRemote RemoteForPush
    LocalRefs.
  intros Hc Hd. unfold uploadsWithObjectIDs, bind.
  set (ps := map _ oids). set (U := uploadedOids c).
  assert (Hps : ∀ p, p ∈ ps → Size p = 0 ∧ Oid p ∈ oids).
  { intros p Hp. apply list_elem_of_In, in_map_iff in Hp as (o & <- & Ho).
    split; [done | by apply list_elem_of_In]. }
  assert (Hoids : ∀ o, o ∈ Oid <$> ps ↔ o ∈ oids).
  { intros o. split.
    - intros (p & -> & Hp)%list_elem_of_fmap_1. by apply Hps.
    - intros Ho. apply list_elem_of_fmap.
      exists {| Oid := o; Size := 0; Name := EmptyString |}.
      split; [done|]. apply list_elem_of_In, in_map_iff.
      exists o. split; [done | by apply list_elem_of_In]. }
  assert (Hzero : ∀ p, p ∈ considered U ps → Size p = 0).
  { intros p [Hp _]%firstNew_elem. by apply Hps. }
  destruct (uploadPointers_calls ps c Hc Hd)
    as (evs & Ht & Hm & Hst & Hs & _). fold U in Hm, Hst, Hs.
  assert (Hst' : storeTests evs = (λ o, (o, 0)) <$> (Oid <$> considered U ps)).
  { rewrite Hst, <- list_fmap_compose. apply list_fmap_ext.
    intros i p Hp. simpl. f_equal. apply Hzero.
    by eapply list_elem_of_lookup_2. }
  assert (Hm' : meterAdds evs = (λ _, 0) <$> (Oid <$> considered U ps)).
  { rewrite Hm, <- list_fmap_compose. apply list_fmap_ext.
    intros i p Hp. simpl. apply Hzero. by eapply list_elem_of_lookup_2. }
  assert (Hs' : Forall (λ n, n = 0) (tqSkips evs)).
  { rewrite Hs. apply Forall_fmap, Forall_forall. intros p Hp. simpl.
    apply Hzero. unfold confirmedRemote, toCheck in Hp.
    apply elem_of_filter in Hp as [Hp _].
    by apply elem_of_filter in Hp as [Hp _]. }
  assert (Hfresh : ∀ o, o ∈ Oid <$> considered U ps ↔ o ∈ oids ∧ o ∉ U).
  { intros o. unfold considered. rewrite firstNew_oids, Hoids. tauto. }
  destruct (uploadPointers ps c) as [[] c1|h c1]; simpl in Ht.
  - destruct (Await_trace c1) as (errs & Ha). rewrite Ha, Ht.
    destruct (Await_calls errs) as (Am & Ast & As & _).
    exists (evs ++ EvTqWait :: (EvFullError <$> errs)),
      (Oid <$> considered U ps).
    split; [by rewrite <- (assoc_L (++))|].
    split; [apply considered_NoDup|]. split; [exact Hfresh|].
    rewrite storeTests_app, meterAdds_app, tqSkips_app, Am, Ast, As.
    by rewrite !app_nil_r.
  - exists evs, (Oid <$> considered U ps).
    split; [exact Ht|]. split; [apply considered_NoDup|]. done.
Qed.

(** ** The wait on the checks *)

Lemma answer_counts l : ∀ c c',
  answer l c = Returns tt c' → cwg c' = cwg c - Z.of_nat (length l).
Proof.
  induction l as [|p l IH]; intros c c'; simpl.
  - intros [= <-]. lia.
  - unfold bind, notify, cwgDone, cwgAdd.
    set (c1 := if serverHas (Oid p) then SetUploaded (Oid p) c else c).
    assert (Hc1 : cwg c1 = cwg c) by (subst c1; by destruct (serverHas _)).
    destruct (_ <? 0); [done|]. intros H%IH. simpl in H. lia.
Qed.

(** X15: [checkMissing] returns exactly when the counter of the wait
    group is 0 when it is called, whatever the order in which the checks
    are answered.  It has then given the missing pointers to the check
    queue, in their order and once each, the counter is 0 again, and the
    uploaded set has gained the ids of those pointers that the server
    has, and no other. *)
Theorem checkMissing_balanced miss ms c :
  ((∃ c', checkMissing miss ms c = Returns tt c') ↔ cwg c = 0)
  ∧ ∀ c', checkMissing miss ms c = Returns tt c' →
          cwg c' = 0
          ∧ trace c' = trace c ++ (EvCqAdd <$> miss)
          ∧ ∀ o, o ∈ uploadedOids c'
                 ↔ o ∈ uploadedOids c
                   ∨ (o ∈ Oid <$> miss ∧ serverHas o = true).
Proof.
  assert (Hzero : ∀ c', checkMissing miss ms c = Returns tt c' → cwg c = 0).
  { intros c'. unfold checkMissing, bind, cwgAdd.
    destruct (_ <? 0); [done|]. rewrite cqAddAll_run.
    match goal with |- context [answer _ ?c2] =>
      destruct (answer (answerOrder miss) c2) as [[] c3|] eqn:Ha;
        [|done] end.
    apply answer_counts in Ha. simpl in Ha.
    rewrite (Permutation_length (answerOrder_perm miss)) in Ha.
    unfold cwgWait. destruct (Z.eqb_spec (cwg c3) 0); [|done]. lia. }
  split.
  - split; [intros [c' H]; by eapply Hzero|]. intros Hc.
    destruct (checkMissing_run miss ms c Hc) as (c' & H & _). by exists c'.
  - intros c' Hrun. pose proof (Hzero c' Hrun) as Hc.
    destruct (checkMissing_run miss ms c Hc) as (c1 & H & _ & Ht & Hw & Hu).
    rewrite Hrun in H. by injection H as ->.
Qed.

(** ** What a push never prints *)

Lemma emits_weaken {A} (P Q : Event → Prop) (m : Run A) :
  (∀ e, P e → Q e) → emits P m → emits Q m.
Proof.
  narrow. intros HPQ Hm c. destruct (Hm c) as (evs & Ht & Hp).
  exists evs. split; [done|]. by eapply Forall_impl.
Qed.

Lemma emits_ret {A} P (a : A) : emits P (ret a).
Proof. narrow. intros c. exists []. by rewrite app_nil_r. Qed.

Lemma emits_halt {A} P h : emits P (@halt A h).
Proof. narrow. intros c. exists []. by rewrite app_nil_r. Qed.

Lemma emits_emit (P : Event → Prop) e : P e → emits P (emit e).
Proof.
  narrow. intros He c. exists [e]. split; [done | by apply Forall_singleton].
Qed.

Lemma emits_silent {A} P (m : Run A) :
  (∀ c, trace (ctxOf (m c)) = trace c) → emits P m.
Proof. narrow. intros H c. exists []. by rewrite app_nil_r. Qed.

Lemma emits_bind {A B} P (m : Run A) (k : A → Run B) :
  emits P m → (∀ a, emits P (k a)) → emits P (bind m k).
Proof.
  narrow. intros Hm Hk c. unfold bind.
  destruct (Hm c) as (evs1 & Ht1 & Hp1).
  destruct (m c) as [a c1|h c1]; simpl in *; [|by eauto].
  destruct (Hk a c1) as (evs2 & Ht2 & Hp2). exists (evs1 ++ evs2).
  split; [by rewrite Ht2, Ht1, (assoc_L (++)) | by apply Forall_app].
Qed.

Lemma emits_cwgAdd P delta : emits P (cwgAdd delta).
Proof.
  narrow. apply emits_silent. intros c. unfold cwgAdd. by destruct (_ <? 0).
Qed.

Lemma emits_answer P l : emits P (answer l).
Proof.
  induction l as [|p l IH]; simpl; [apply emits_ret|].
  apply emits_bind; [|done]. apply emits_silent. intros c.
  unfold notify, cwgDone, cwgAdd.
  by destruct (serverHas (Oid p)), (_ <? 0).
Qed.

Lemma emits_prepareUpload ps :
  emits (λ e, isPrint e = false) (prepareUpload ps).
Proof.
  intros c. unfold prepareUpload. rewrite classify_run.
  match goal with |- context [checkMissing ?m ?ms ?c1] =>
    assert (Hcm : emits (λ e, isPrint e = false) (checkMissing m ms));
      [|destruct (Hcm c1) as (evs & Ht & Hp);
        destruct (checkMissing m ms c1) as [[] c2|h c2]] end.
  { unfold checkMissing. apply emits_bind; [apply emits_cwgAdd|]. intros _.
    apply emits_bind.
    { intros c0. rewrite cqAddAll_run. eexists. split; [done|].
      apply Forall_fmap, Forall_forall. by intros p _. }
    intros _. apply emits_bind; [apply emits_answer|]. intros _.
    apply emits_silent. intros c0. unfold cwgWait. by destruct (_ =? 0). }
  - rewrite skipUploaded_run. simpl in *. rewrite Ht. simpl.
    eexists. split; [by rewrite <- !(assoc_L (++))|].
    apply Forall_app. split; [|apply Forall_app; split; [done|]].
    + apply Forall_forall. intros e (p & _ & [->| ->])%estimate_elem; done.
    + apply Forall_fmap, Forall_forall. by intros p _.
  - simpl in *. rewrite Ht. simpl.
    eexists. split; [by rewrite <- !(assoc_L (++))|].
    apply Forall_app. split; [|done].
    apply Forall_forall. intros e (p & _ & [->| ->])%estimate_elem; done.
Qed.

Lemma emits_enqueueAll ps : emits (λ e, isPrint e = false) (enqueueAll ps).
Proof.
  intros c. destruct (enqueueAll_frame ps c) as (Ht & _).
  eexists. split; [exact Ht|]. clear.
  induction ps as [|p ps IH]; [done|]. simpl.
  constructor; [done|].
  destruct (uploadTransfer (Oid p) (Name p)); [by constructor | done].
Qed.

Lemma emits_uploadPointers ps :
  emits (λ e, e ≠ usageForRefs) (uploadPointers ps).
Proof.
  intros c. unfold uploadPointers. destruct (DryRun c).
  - destruct (printPushes_run ps c) as (c' & -> & _ & _ & Ht & _).
    eexists. split; [exact Ht|].
    apply Forall_fmap, Forall_forall. by intros p _.
  - revert c. apply emits_bind.
    + eapply emits_weaken; [|apply emits_prepareUpload].
      by intros e He ->.
    + intros pointers. eapply emits_weaken; [|apply emits_enqueueAll].
      by intros e He ->.
Qed.

Lemma emits_Await : emits (λ e, e ≠ usageForRefs) Await.
Proof.
  intros c. destruct (Await_trace c) as (errs & Ht).
  eexists. split; [exact Ht|]. constructor; [done|].
  apply Forall_fmap, Forall_forall. by intros err _.
Qed.

Lemma emits_uploadRefs refs :
  emits (λ e, e ≠ usageForRefs) (uploadRefs refs).
Proof.
  induction refs as [|ref refs IH]; simpl; [apply emits_ret|].
  destruct (scanLeftOrAll (refName ref)) as [pointers [err|]].
  - apply emits_bind; [by apply emits_emit|]. intros _. apply emits_halt.
  - apply emits_bind; [apply emits_uploadPointers | done].
Qed.

(** X16: [pushCommand] never prints the usage line for refs,
    [Usage: git lfs push --dry-run <remote> [ref]]: the test that guards
    it asks for a command line without arguments, and such a command line
    has ended the process before. *)
Theorem pushCommand_never_usage_for_refs args :
  match pushCommand args with
  | PushStops printed _ => usageForRefs ∉ printed
  | PushRuns _ o => usageForRefs ∉ trace (ctxOf o)
  end.
Proof.
  unfold pushCommand. destruct args as [|remote rest].
  { by intros [[=]|[]%elem_of_nil]%elem_of_cons. }
  destruct requireGitVersion; [apply not_elem_of_nil|].
  destruct (ValidateRemote remote); [apply not_elem_of_nil|].
  assert (Hall : ∀ m : Run unit, emits (λ e, e ≠ usageForRefs) m →
            usageForRefs ∉ trace (ctxOf (m (newUploadContext pushDryRun)))).
  { intros m Hm. destruct (Hm (newUploadContext pushDryRun))
      as (evs & -> & Hp). simpl. intros Hin.
    by apply (proj1 (Forall_forall _ _) Hp usageForRefs Hin). }
  destruct pushObjectIDs.
  - destruct (_ <? 2)%nat.
    + apply (Hall (emit _)). by apply emits_emit.
    + apply Hall. unfold uploadsWithObjectIDs.
      apply emits_bind; [apply emits_uploadPointers|]. intros _.
      apply emits_Await.
  - apply Hall. unfold uploadsBetweenRefAndRemote.
    destruct (RemoteForPush remote); [apply emits_halt|].
    destruct (refsByNames _) as [refs|err].
    + apply emits_bind; [apply emits_uploadRefs|]. intros _.
      apply emits_Await.
    + apply emits_bind; [by apply emits_emit|]. intros _. apply emits_halt.
Qed.

(** ** The upload phase when every pointer resolves *)

Lemma enqueueTrace_adds l :
  (∀ q, q ∈ l → ∃ t, uploadTransfer (Oid q) (Name q) = inl t) →
  inl <$> tqAdds (enqueueTrace l)
  = (λ p, uploadTransfer (Oid p) (Name p)) <$> l.
Proof.
  induction l as [|p l IH]; intros Hall; [done|].
  destruct (Hall p) as [t Ht]; [by left|].
  rewrite fmap_cons, <- IH by (intros q Hq; apply Hall; by right).
  simpl. rewrite Ht. by destruct t.
Qed.

(** X17: when not in a dry run and every pointer of the input resolves in
    the local store, [uploadPointers] returns; it has resolved the ready
    pointers in their order, once each, and put on the upload queue the
    transfer of each resolution, in the same order; every object id of
    the input is then in the uploaded set and the wait group is at
    rest. *)
Theorem uploadPointers_enqueues_ready ps c :
  cwg c = 0 → DryRun c = false →
  (∀ p, p ∈ ps → ∃ t, uploadTransfer (Oid p) (Name p) = inl t) →
  ∃ ready c0 c' evs,
    prepareUpload ps c = Returns ready c0
    ∧ uploadPointers ps c = Returns tt c'
    ∧ trace c' = trace c0 ++ evs
    ∧ resolutions evs = Oid <$> ready
    ∧ inl <$> tqAdds evs = (λ p, uploadTransfer (Oid p) (Name p)) <$> ready
    ∧ length (tqAdds evs) = length ready
    ∧ (∀ p, p ∈ ps → Oid p ∈ uploadedOids c')
    ∧ cwg c' = 0.
Proof.
  intros Hc Hd Hall.
  destruct (uploadPointers_live ps c Hd Hc) as (c0 & Hprep & Hup).
  set (U := uploadedOids c) in *.
  set (ready := foundLocally U ps ++ stillMissing U ps) in *.
  assert (Hres : ∀ q, q ∈ ready →
                      ∃ t, uploadTransfer (Oid q) (Name q) = inl t).
  { intros q [Hq _]%ready_considered. apply Hall.
    by apply firstNew_elem in Hq as [? _]. }
  destruct (enqueueAll_all_resolve ready c0 Hres) as (c' & Hrun & Hlen & Hr).
  destruct (enqueueAll_frame ready c0) as (Ht & _ & Hw).
  rewrite Hrun in Ht, Hw. simpl in Ht, Hw.
  destruct (prepareUpload_run ps c Hc) as (c0' & Hprep' & _ & Hw0 & _ & Hu).
  fold U in Hprep', Hu. fold ready in Hprep'.
  rewrite Hprep in Hprep'. injection Hprep' as <-.
  exists ready, c0, c', (enqueueTrace ready).
  split; [exact Hprep|]. split; [by rewrite Hup|]. split; [exact Ht|].
  split; [exact Hr|]. split; [by apply enqueueTrace_adds|].
  split; [exact Hlen|]. split; [|congruence].
  intros p Hp. apply (enqueueAll_uploaded _ _ _ Hrun).
  destruct (decide (Oid p ∈ U)) as [Hin|Hnin].
  { left. apply Hu. by left. }
  assert (Oid p ∈ Oid <$> considered U ps) as (q & -> & Hq)%list_elem_of_fmap_1.
  { apply firstNew_oids. split; [done | by apply list_elem_of_fmap_2]. }
  destruct (localPresent q) eqn:Hl.
  { right. apply list_elem_of_fmap_2, elem_of_app. left.
    unfold foundLocally. by apply elem_of_filter. }
  assert (Hqc : q ∈ toCheck U ps).
  { unfold toCheck. apply elem_of_filter. by rewrite Hl. }
  destruct (serverHas (Oid q)) eqn:Hs.
  - left. apply Hu. right. split; [by apply list_elem_of_fmap_2 | done].
  - right. apply list_elem_of_fmap_2, elem_of_app. right.
    unfold stillMissing. apply elem_of_filter. unfold onServer.
    by rewrite Hs.
Qed.

End Uploader.




(** ** The scenarios, run *)

Lemma inOrder_perm : ∀ l, inOrder l ≡ₚ l.
Proof. done. Qed.

Lemma lastFirst_perm : ∀ l, lastFirst l ≡ₚ l.
Proof. intros l. apply reverse_Permutation. Qed.

(** Two pointers to the object C, absent locally, after the locally
    present A: one check, for C. *)
Lemma prepareUpload_checks_once_witness :
  cwg (newUploadContext false) = 0
  ∧ ∃ ready c' evs,
      prepareUpload storeWithA serverWithB lastFirst [ptrA; ptrC; ptrC2]
        (newUploadContext false) = Returns ready c'
      ∧ trace c' = trace (newUploadContext false) ++ evs
      ∧ NoDup (Oid <$> cqAdds evs)
      ∧ count_occ String.string_dec (Oid <$> cqAdds evs) "C" = 1%nat
      ∧ ptrA ∉ cqAdds evs.
Proof.
  split; [reflexivity|].
  destruct (prepareUpload_checks_once storeWithA serverWithB lastFirst
              lastFirst_perm [ptrA; ptrC; ptrC2] (newUploadContext false)
              eq_refl)
    as (ready & c' & evs & H1 & H2 & H3 & _ & _ & H6 & H7 & _).
  exists ready, c', evs. split; [exact H1|]. split; [exact H2|].
  split; [exact H3|]. split.
  - apply (H6 "C" ptrC); [apply not_elem_of_empty | reflexivity..].
  - apply H7. reflexivity.
Defined.

(** A locally present A and a B that the server has: the 15 bytes added to
    the meter are the 10 bytes of the ready A and the 5 bytes skipped. *)
Lemma prepareUpload_accounting_witness :
  cwg (newUploadContext false) = 0
  ∧ ∃ ready c' evs,
      prepareUpload storeWithA serverWithB inOrder [ptrA; ptrB]
        (newUploadContext false) = Returns ready c'
      ∧ trace c' = trace (newUploadContext false) ++ evs
      ∧ meterAdds evs = [10; 5]
      ∧ tqSkips evs = [5]
      ∧ sumZ (Size <$> ready) + sumZ (tqSkips evs) = 15.
Proof.
  split; [reflexivity|].
  destruct (prepareUpload_accounting storeWithA serverWithB inOrder
              inOrder_perm [ptrA; ptrB] (newUploadContext false) eq_refl)
    as (ready & c' & evs & rest & H1 & H2 & _ & _ & H5 & _ & _ & _ & H9
        & _ & H11).
  exists ready, c', evs. split; [exact H1|]. split; [exact H2|].
  split; [exact H5|]. split; [exact H9|]. exact H11.
Defined.

(** Scenario 2: B is absent locally and the server has it. *)
Lemma prepareUpload_skips_confirmed_witness :
  cwg (newUploadContext false) = 0
  ∧ ∃ ready c' evs,
      prepareUpload storeWithA serverWithB inOrder [ptrB]
        (newUploadContext false) = Returns ready c'
      ∧ trace c' = trace (newUploadContext false) ++ evs
      ∧ cqAdds evs = [ptrB]
      ∧ "B" ∈ uploadedOids c'.
Proof.
  split; [reflexivity|].
  destruct (prepareUpload_skips_confirmed storeWithA serverWithB inOrder
              resolveAll inOrder_perm [ptrB] (newUploadContext false)
              eq_refl)
    as (ready & c' & evs & H1 & H2 & H3 & _ & _ & _ & _ & _ & H9 & _).
  exists ready, c', evs. split; [exact H1|]. split; [exact H2|].
  split; [exact H3|].
  apply H9. right. split; [|reflexivity]. apply list_elem_of_here.
Defined.

(** C4, as stated: the ready list keeps the relative order of the input.
    It does not: C, absent locally and unknown to the server, comes
    first in the input and last in the ready list. *)
Lemma prepareUpload_ready_order_counterexample :
  ∃ ready c',
    prepareUpload storeWithA serverWithB inOrder [ptrC; ptrA]
      (newUploadContext false) = Returns ready c'
    ∧ ready = [ptrA; ptrC]
    ∧ ¬ ready `sublist_of` [ptrC; ptrA].
Proof.
  eexists _, _. split; [vm_compute; reflexivity|]. split; [reflexivity|].
  intros H.
  repeat match goal with
         | H : _ `sublist_of` _ |- _ => inversion H; clear H; subst
         end.
Qed.

Lemma prepareUpload_ready_order_witness :
  cwg (newUploadContext false) = 0
  ∧ ∃ c',
      prepareUpload storeWithA serverWithB inOrder [ptrC; ptrA]
        (newUploadContext false) = Returns ([ptrA] ++ [ptrC]) c'
      ∧ [ptrA] `sublist_of` [ptrC; ptrA]
      ∧ [ptrC] `sublist_of` [ptrC; ptrA].
Proof.
  split; [reflexivity|].
  destruct (prepareUpload_ready_order storeWithA serverWithB inOrder
              inOrder_perm [ptrC; ptrA] (newUploadContext false) eq_refl)
    as (c' & H1 & H2 & H3 & _).
  exists c'. split; [exact H1|]. split; [exact H2 | exact H3].
Defined.

(** A is found locally and C is not: both are ready, and C is marked as
    soon as it has been handed to the queue. *)
Lemma uploadedOids_monotonic_marked_at_handoff_witness :
  DryRun (newUploadContext false) = false
  ∧ cwg (newUploadContext false) = 0
  ∧ "C" ∈ uploadedOids
            (ctxOf (uploadPointers storeWithA serverWithB inOrder resolveAll
                      [ptrA; ptrC] (newUploadContext false))).
Proof.
  split; [reflexivity|]. split; [reflexivity|].
  destruct (uploadedOids_monotonic_marked_at_handoff storeWithA serverWithB
              inOrder resolveAll noErrors inOrder_perm)
    as (_ & _ & _ & _ & _ & _ & H).
  destruct (H [ptrA; ptrC] (newUploadContext false) eq_refl eq_refl)
    as (ready & c0 & Hprep & _ & Hstep).
  vm_compute in Hprep. injection Hprep as <- <-.
  eapply (Hstep [ptrA] ptrC []); [reflexivity | vm_compute; reflexivity].
Defined.

(** A second run over A, B and C finds nothing left to do. *)
Lemma uploadPointers_idempotent_witness :
  cwg (newUploadContext false) = 0
  ∧ (∃ c1,
       uploadPointers storeWithA serverWithB inOrder resolveAll
         [ptrA; ptrB; ptrC] (newUploadContext false) = Returns tt c1
       ∧ uploadPointers storeWithA serverWithB inOrder resolveAll
           [ptrA; ptrB; ptrC] c1 = Returns tt c1)
  ∧ prepareUpload storeWithA serverWithB inOrder [ptrA]
      (SetUploaded "A" (newUploadContext false))
    = Returns [] (SetUploaded "A" (newUploadContext false)).
Proof.
  split; [reflexivity|]. split.
  - destruct (uploadPointers_idempotent storeWithA serverWithB inOrder
                resolveAll inOrder_perm [ptrA; ptrB; ptrC]
                (newUploadContext false) eq_refl) as [_ H].
    eexists. split; [vm_compute; reflexivity|].
    apply H. vm_compute. reflexivity.
  - destruct (uploadPointers_idempotent storeWithA serverWithB inOrder
                resolveAll inOrder_perm [ptrA]
                (SetUploaded "A" (newUploadContext false)) eq_refl)
      as [H _].
    apply H. intros p ->%list_elem_of_singleton.
    unfold SetUploaded, StringSet.Add. simpl.
    apply elem_of_union_l, elem_of_singleton. reflexivity.
Defined.

(** Scenario 5: the drained queue reports one error. *)
Lemma Await_exit_status_witness :
  Await oneError (newUploadContext false)
  = Halts (OsExit 2)
      {| DryRun := false; uploadedOids := ∅; cwg := 0;
         trace := [EvTqWait; EvFullError (PlainError "upload failed")] |}
  ∧ Await noErrors (newUploadContext false)
    = Returns tt {| DryRun := false; uploadedOids := ∅; cwg := 0;
                    trace := [EvTqWait] |}.
Proof.
  split.
  - exact (proj1 (Await_exit_status storeWithA serverWithB inOrder resolveAll
                    oneError false false false None onlyOrigin noRefs
                    anyRemote emptyScan emptyScan (newUploadContext false))).
  - exact (proj1 (Await_exit_status storeWithA serverWithB inOrder resolveAll
                    noErrors false false false None onlyOrigin noRefs
                    anyRemote emptyScan emptyScan (newUploadContext false))).
Defined.

(** Scenario 4: a dry run over A and B. *)
Lemma dry_run_prints_and_marks_witness :
  DryRun (newUploadContext true) = true
  ∧ ∃ c' evs,
      uploadPointers storeWithA serverWithB inOrder resolveAll [ptrA; ptrB]
        (newUploadContext true) = Returns tt c'
      ∧ trace c' = trace (newUploadContext true) ++ evs
      ∧ evs = [EvPrint "push %s => %s" ["A"; "a.bin"];
               EvPrint "push %s => %s" ["B"; "b.bin"]]
      ∧ "A" ∈ uploadedOids c'
      ∧ "B" ∈ uploadedOids c'.
Proof.
  split; [reflexivity|].
  destruct (dry_run_prints_and_marks storeWithA serverWithB inOrder
              resolveAll [ptrA; ptrB] (newUploadContext true) eq_refl)
    as (c' & evs & H1 & _ & H3 & H4 & _ & _ & _ & _ & H9 & _).
  exists c', evs. split; [exact H1|]. split; [exact H3|].
  split; [exact H4|]. split.
  - apply (H9 ptrA). apply list_elem_of_here.
  - apply (H9 ptrB). apply list_elem_of_further, list_elem_of_here.
Defined.

(** A dry run over two pointers to C prints one notice, and a second dry
    run over C prints none. *)
Lemma dry_run_one_notice_per_oid_witness :
  DryRun (newUploadContext true) = true
  ∧ ∃ c' evs,
      uploadPointers storeWithA serverWithB inOrder resolveAll [ptrC; ptrC2]
        (newUploadContext true) = Returns tt c'
      ∧ trace c' = trace (newUploadContext true) ++ evs
      ∧ count_occ String.string_dec (pushNotices evs) "C" = 1%nat
      ∧ ∃ c'' evs2,
          uploadPointers storeWithA serverWithB inOrder resolveAll [ptrC2] c'
          = Returns tt c''
          ∧ trace c'' = trace c' ++ evs2
          ∧ "C" ∉ pushNotices evs2.
Proof.
  split; [reflexivity|].
  destruct (dry_run_one_notice_per_oid storeWithA serverWithB inOrder
              resolveAll [ptrC; ptrC2] (newUploadContext true) eq_refl)
    as (c' & evs & H1 & H2 & _ & H4 & _ & H6).
  exists c', evs. split; [exact H1|]. split; [exact H2|]. split.
  - apply H4; [apply list_elem_of_here | apply not_elem_of_empty].
  - destruct (H6 [ptrC2]) as (c'' & evs2 & G1 & G2 & G3 & _).
    exists c'', evs2. split; [exact G1|]. split; [exact G2|].
    apply G3. apply list_elem_of_here.
Defined.

(** C9 at [git lfs push --object-id origin]: the usage line is printed and
    [pushCommand] returns to its caller; the process is not ended with
    status 1, unlike on the empty command line. *)
Theorem pushCommand_object_id_without_ids_returns :
  pushCommand storeWithA serverWithB inOrder resolveAll noErrors
    false true false None onlyOrigin noRefs anyRemote emptyScan emptyScan
    ["origin"]
  = PushRuns "origin"
      (Returns tt
         {| DryRun := false; uploadedOids := ∅; cwg := 0;
            trace := [EvPrint "Usage: git lfs push --object-id <remote> <lfs-object-id> [lfs-object-id] ..." []] |})
  ∧ pushCommand storeWithA serverWithB inOrder resolveAll noErrors
      false true false None onlyOrigin noRefs anyRemote emptyScan emptyScan
      []
    = PushStops
        [EvPrint "Specify a remote and a remote branch name (`git lfs push origin master`)" []]
        (OsExit 1)
  ∧ pushCommand storeWithA serverWithB inOrder resolveAll noErrors
      false true false None onlyOrigin noRefs anyRemote emptyScan emptyScan
      ["upstream"]
    = PushStops [] (ExitCall "Invalid remote name %q" ["upstream"]).
Proof.
  split; [|split].
  - by apply pushCommand_object_id_without_ids.
  - apply pushCommand_no_args.
  - by eapply pushCommand_invalid_remote.
Qed.

(** ** The order of the answers does not matter *)

(** X14: whatever the order in which the check queue answers,
    [prepareUpload] and [uploadPointers] give the same result: the same
    ready list, the same calls in the same order and the same uploaded
    set. *)
Theorem uploadPointers_any_order
    (ObjectExistsOfSize : string → Z → bool) (serverHas : string → bool)
    (uploadTransfer : string → string → Transfer + Error)
    (order1 order2 : list WrappedPointer → list WrappedPointer) ps c :
  (∀ l, order1 l ≡ₚ l) → (∀ l, order2 l ≡ₚ l) → cwg c = 0 →
  prepareUpload ObjectExistsOfSize serverHas order1 ps c
  = prepareUpload ObjectExistsOfSize serverHas order2 ps c
  ∧ uploadPointers ObjectExistsOfSize serverHas order1 uploadTransfer ps c
    = uploadPointers ObjectExistsOfSize serverHas order2 uploadTransfer ps c.
Proof.
  intros H1 H2 Hc.
  assert (Hprep : prepareUpload ObjectExistsOfSize serverHas order1 ps c
                  = prepareUpload ObjectExistsOfSize serverHas order2 ps c).
  { destruct (prepareUpload_run ObjectExistsOfSize serverHas order1 H1 ps c Hc)
      as (c1 & -> & Hd1 & Hw1 & Ht1 & Hu1).
    destruct (prepareUpload_run ObjectExistsOfSize serverHas order2 H2 ps c Hc)
      as (c2 & -> & Hd2 & Hw2 & Ht2 & Hu2).
    f_equal. apply context_eq; [congruence..|].
    intros o. by rewrite Hu1, Hu2. }
  split; [exact Hprep|]. unfold uploadPointers, bind. by rewrite Hprep.
Qed.

(** ** The other properties, on the scenarios *)

Lemma refsByNames_lookup_witness :
  refsByNames false twoMasters ["master"; "topic"]
  = inl [refMaster2; mkRef "topic" RefTypeOther "topic"].
Proof. rewrite refsByNames_lookup. reflexivity. Defined.

Lemma refsByNames_names_witness :
  twoMasters = inl [refMaster; refMaster2]
  ∧ ∃ refs,
      refsByNames false twoMasters ["master"; "topic"] = inl refs
      ∧ refName <$> refs = ["master"; "topic"].
Proof.
  split; [reflexivity|].
  destruct (refsByNames_names false twoMasters [refMaster; refMaster2]
              ["master"; "topic"] eq_refl eq_refl) as (refs & H1 & H2 & _).
  exists refs. split; [exact H1 | exact H2].
Defined.

Lemma scanLeftOrAll_result_witness :
  scanLeftOrAll true scanBroken scanAB "broken"
  = ([ptrC], Some (PlainError "scan failed")).
Proof. rewrite scanLeftOrAll_result. reflexivity. Defined.

Lemma scanLeftOrAll_ok_witness :
  (scanLeftOrAll true scanAB scanAB "master").2 = None
  ∧ (scanLeftOrAll true scanAB scanAB "master").1 = [ptrA; ptrB; ptrA; ptrB].
Proof.
  destruct (scanLeftOrAll_ok true scanAB scanAB "master") as [Hiff Hall].
  assert (H : (scanLeftOrAll true scanAB scanAB "master").2 = None).
  { apply Hiff. repeat split; reflexivity. }
  split; [exact H|]. exact (proj1 (Hall H)).
Defined.



(** [git lfs push origin master topic], both refs holding A and B. *)
Lemma pushCommand_handles_once_witness :
  NoDup (resolutions
           (trace (ctxOf (uploadsBetweenRefAndRemote storeWithA serverWithB
                            inOrder resolveAll noErrors false twoMasters
                            anyRemote emptyScan scanAB "origin"
                            ["master"; "topic"] (newUploadContext false))))).
Proof.
  exact (proj1 (proj2
    (pushCommand_handles_once storeWithA serverWithB inOrder resolveAll
       noErrors false false false None onlyOrigin twoMasters anyRemote
       emptyScan scanAB inOrder_perm ["origin"; "master"; "topic"] "origin"
       _ eq_refl))).
Defined.

(** The pointer on disk for C is that of the object D. *)
Lemma enqueueAll_stops_at_failure_witness :
  mismatchOnC "C" "c.bin" = inr (CleanPointerError "D" "pointer mismatch")
  ∧ ∃ c',
      enqueueAll mismatchOnC [ptrA; ptrC; ptrB] (newUploadContext false)
      = Halts (ExitCall
                 "%s does not exist in .git/lfs/objects. Tried %s, which matches %s."
                 ["C"; "c.bin"; "D"]) c'
      ∧ ∀ o, o ∈ uploadedOids c' ↔ o ∈ (∅ : gset string) ∨ o ∈ ["A"].
Proof.
  split; [reflexivity|].
  destruct (enqueueAll_stops_at_failure mismatchOnC [ptrA] ptrC [ptrB]
              (CleanPointerError "D" "pointer mismatch")
              (newUploadContext false))
    as (c' & H1 & _ & _ & _ & H5).
  - intros q ->%list_elem_of_singleton. eexists. reflexivity.
  - reflexivity.
  - exists c'. split; [exact H1 | exact H5].
Defined.

Lemma uploadRefs_stops_at_scan_error_witness :
  scanLeftOrAll false emptyScan scanBroken "broken"
  = ([ptrC], Some (PlainError "scan failed"))
  ∧ ∃ c1,
      uploadRefs storeWithA serverWithB inOrder resolveAll false emptyScan
        scanBroken [refMaster; refBroken; refMaster2] (newUploadContext false)
      = Halts (ExitWithError (PlainError "scan failed")) c1.
Proof.
  split; [reflexivity|].
  destruct (uploadRefs_stops_at_scan_error storeWithA serverWithB inOrder
              resolveAll false emptyScan scanBroken inOrder_perm
              [refMaster] refBroken [refMaster2] [ptrC]
              (PlainError "scan failed") (newUploadContext false))
    as [H _].
  - intros r ->%list_elem_of_singleton. reflexivity.
  - reflexivity.
  - eexists. etrans; [exact H|]. vm_compute. reflexivity.
Defined.

Lemma prepareUpload_ready_distinct_witness :
  cwg (newUploadContext false) = 0
  ∧ ∃ ready c' evs,
      prepareUpload storeWithA serverWithB lastFirst
        [ptrA; ptrB; ptrC; ptrC2] (newUploadContext false) = Returns ready c'
      ∧ trace c' = trace (newUploadContext false) ++ evs
      ∧ NoDup (Oid <$> ready)
      ∧ ("B" ∈ uploadedOids c' ∨ "B" ∈ Oid <$> ready).
Proof.
  split; [reflexivity|].
  destruct (prepareUpload_ready_distinct storeWithA serverWithB lastFirst
              lastFirst_perm [ptrA; ptrB; ptrC; ptrC2]
              (newUploadContext false) eq_refl)
    as (ready & c' & evs & H1 & H2 & H3 & _ & H5 & _).
  exists ready, c', evs. split; [exact H1|]. split; [exact H2|].
  split; [exact H3|]. apply H5.
  apply list_elem_of_further, list_elem_of_here.
Defined.

(** B and C are missing locally: 10 bytes. *)
Lemma classify_missingSize_witness :
  (classify storeWithA [ptrA; ptrB; ptrC; ptrC2] StringSet.NewStringSet
     [] [] 0 (newUploadContext false)).2.2 = 10.
Proof.
  apply (proj2 (proj2 (classify_missingSize storeWithA
                         [ptrA; ptrB; ptrC; ptrC2] (newUploadContext false)))).
  - repeat constructor; discriminate.
  - reflexivity.
Defined.


(** [git lfs push --object-id origin A A B]. *)
Lemma uploadsWithObjectIDs_sizes_witness :
  cwg (newUploadContext false) = 0
  ∧ DryRun (newUploadContext false) = false
  ∧ ∃ evs,
      trace (ctxOf (uploadsWithObjectIDs storeWithA serverWithB inOrder
                      resolveAll noErrors ["A"; "A"; "B"]
                      (newUploadContext false)))
      = trace (newUploadContext false) ++ evs
      ∧ Forall (λ n, n = 0) (meterAdds evs)
      ∧ Forall (λ n, n = 0) (tqSkips evs).
Proof.
  split; [reflexivity|]. split; [reflexivity|].
  destruct (uploadsWithObjectIDs_sizes storeWithA serverWithB inOrder
              resolveAll noErrors inOrder_perm ["A"; "A"; "B"]
              (newUploadContext false) eq_refl eq_refl)
    as (evs & fresh & H1 & _ & _ & _ & H5 & H6).
  exists evs. split; [exact H1|]. split; [|exact H6].
  rewrite H5. apply Forall_fmap, Forall_forall. intros o _. reflexivity.
Defined.

Lemma uploadPointers_any_order_witness :
  cwg (newUploadContext false) = 0
  ∧ uploadPointers storeWithA serverWithB inOrder resolveAll
      [ptrA; ptrB; ptrC] (newUploadContext false)
    = uploadPointers storeWithA serverWithB lastFirst resolveAll
        [ptrA; ptrB; ptrC] (newUploadContext false).
Proof.
  split; [reflexivity|].
  exact (proj2 (uploadPointers_any_order storeWithA serverWithB resolveAll
                  inOrder lastFirst [ptrA; ptrB; ptrC]
                  (newUploadContext false) inOrder_perm lastFirst_perm
                  eq_refl)).
Defined.

Lemma checkMissing_balanced_witness :
  ∃ c', checkMissing serverWithB lastFirst [ptrB; ptrC] 10
          (newUploadContext false) = Returns tt c'.
Proof.
  apply (proj1 (checkMissing_balanced serverWithB lastFirst lastFirst_perm
                  [ptrB; ptrC] 10 (newUploadContext false))).
  reflexivity.
Defined.

(** [git lfs push origin]: no ref is named, and no usage line printed. *)
Lemma pushCommand_never_usage_for_refs_witness :
  match pushCommand storeWithA serverWithB inOrder resolveAll noErrors
          false false false None onlyOrigin noRefs anyRemote emptyScan
          emptyScan ["origin"] with
  | PushStops printed _ => usageForRefs ∉ printed
  | PushRuns _ o => usageForRefs ∉ trace (ctxOf o)
  end.
Proof.
  exact (pushCommand_never_usage_for_refs storeWithA serverWithB inOrder
           resolveAll noErrors false false false None onlyOrigin noRefs
           anyRemote emptyScan emptyScan inOrder_perm ["origin"]).
Defined.

(** A, found locally, and C, missing everywhere, are both uploaded. *)
Lemma uploadPointers_enqueues_ready_witness :
  cwg (newUploadContext false) = 0
  ∧ DryRun (newUploadContext false) = false
  ∧ ∃ c' evs,
      uploadPointers storeWithA serverWithB inOrder resolveAll
        [ptrC; ptrA; ptrB] (newUploadContext false) = Returns tt c'
      ∧ resolutions evs = ["A"; "C"]
      ∧ length (tqAdds evs) = 2%nat.
Proof.
  split; [reflexivity|]. split; [reflexivity|].
  destruct (uploadPointers_enqueues_ready storeWithA serverWithB inOrder
              resolveAll inOrder_perm [ptrC; ptrA; ptrB]
              (newUploadContext false) eq_refl eq_refl)
    as (ready & c0 & c' & evs & H1 & H2 & _ & H4 & _ & H6 & _).
  - intros p _. eexists. reflexivity.
  - vm_compute in H1. injection H1 as <- _.
    exists c', evs. split; [exact H2|]. split; [exact H4 | exact H6].
Defined.
